(** * DCML load injectors: a model of [LoadInjector.py] and its properties

    The development follows the Python module [LoadInjector.py]:

    - the values a job description carries (a JSON object read into a
      [dict]) are JSON scalars, modelled by [value]; numbers are Python
      [int]s, kept as [Z];
    - the instance attributes set by [LoadInjector.__init__] form the record
      [injector]; the list object behind [self.injected_interval] lives in a
      store of list objects ([gmap loc (list interval)]), so that a reference
      handed out by [get_injections] aliases the injector's own list;
    - [inject] starts a [threading.Thread] running [inject_body]; threads are
      modelled by their program counter, one statement of the body being one
      atomic step, and a run of the system is a list of [action]s: the wall
      clock advancing, the caller invoking a method, or a thread executing
      its next statement.  [time.sleep] only lets time pass, which the
      [Tick] action does at any point, by any non-negative amount: the
      wall clock behind [current_ms] is taken never to be set back.

    The second part follows the loop of [anomaly_detector.py] that keeps the
    warning level ([SystemMonitorInjector.monitor_and_detect]). *)

From stdpp Require Import gmap strings list pretty sorting.
From Stdlib Require Import ZArith Lia.

Local Open Scope Z_scope.

(** ** Python values and exceptions *)

Inductive value : Type :=
| VNone
| VBool (b : bool)
| VInt (z : Z)
| VStr (s : string).

#[global] Instance value_eq_dec : EqDecision value.
Proof. solve_decision. Defined.

Inductive exn : Type :=
| TypeError.

#[global] Instance exn_eq_dec : EqDecision exn.
Proof. solve_decision. Defined.

Inductive result (A : Type) : Type :=
| Return (a : A)
| Raise (e : exn).

Arguments Return {A} a.
Arguments Raise {A} e.

(** [str(v)] on the values above. *)
Definition py_str (v : value) : string :=
  match v with
  | VNone => "None"
  | VBool true => "True"
  | VBool false => "False"
  | VInt z => pretty z
  | VStr s => s
  end.

(** [s + v] for a [str] on the left: only [str + str] is defined. *)
Definition py_str_add (s : string) (v : value) : result string :=
  match v with
  | VStr t => Return (s +:+ t)
  | _ => Raise TypeError
  end.

(** The integer a value stands for in an arithmetic comparison ([bool] is a
    subclass of [int]); [None] and [str] do not compare with an [int]. *)
Definition as_int (v : value) : option Z :=
  match v with
  | VInt z => Some z
  | VBool b => Some (if b then 1 else 0)
  | _ => None
  end.

(** [x < v] for an [int] x. *)
Definition py_int_lt (x : Z) (v : value) : result bool :=
  match as_int v with
  | Some d => Return (x <? d)
  | None => Raise TypeError
  end.

(** [v in S] for a set literal of strings: hashing and equality, so a value
    that is not a [str] is simply not a member. *)
Definition py_in (v : value) (S : gset string) : bool :=
  match v with
  | VStr s => bool_decide (s ∈ S)
  | _ => false
  end.

(** ** Objects *)

(** A ledger entry, the dict [{'start': ..., 'end': ...}]. *)
Record interval : Type := { i_start : Z; i_end : Z }.

#[global] Instance interval_eq_dec : EqDecision interval.
Proof. solve_decision. Defined.

(** References to list objects, and the store of list objects. *)
Abbreviation loc := positive (only parsing).
Abbreviation store := (gmap positive (list interval)) (only parsing).

(** [l.append(x)] through a reference. *)
Definition py_list_append (r : loc) (x : interval) (h : store) : store :=
  alter (λ l, l ++ [x]) r h.

(** [l.clear()] through a reference. *)
Definition py_list_clear (r : loc) (h : store) : store :=
  alter (λ _, []) r h.

(** The concrete classes; [LoadInjector] itself is abstract. *)
Inductive class : Type :=
| SSD
| RAM.

#[global] Instance class_eq_dec : EqDecision class.
Proof. solve_decision. Defined.

(** Instance attributes, as [LoadInjector.__init__] sets them.
    [inj_thread] is the index of the [Thread] object in the thread pool. *)
Record injector : Type := {
  cls : class;
  valid : bool;
  tag : value;
  duration_ms : value;
  inj_thread : option nat;
  completed_flag : bool;
  injected_interval : loc
}.

Definition set_completed_flag (b : bool) (o : injector) : injector :=
  {| cls := cls o; valid := valid o; tag := tag o;
     duration_ms := duration_ms o; inj_thread := inj_thread o;
     completed_flag := b; injected_interval := injected_interval o |}.

Definition set_inj_thread (t : option nat) (o : injector) : injector :=
  {| cls := cls o; valid := valid o; tag := tag o;
     duration_ms := duration_ms o; inj_thread := t;
     completed_flag := completed_flag o;
     injected_interval := injected_interval o |}.

(** Not an operation of the class: an assignment [self.valid = b], as a
    subclass overriding [init] would make on a failed set-up. *)
Definition set_valid (b : bool) (o : injector) : injector :=
  {| cls := cls o; valid := b; tag := tag o;
     duration_ms := duration_ms o; inj_thread := inj_thread o;
     completed_flag := completed_flag o;
     injected_interval := injected_interval o |}.

(** ** Threads running [inject_body] *)

(** Program points of [inject_body], named after the statement about to be
    executed. *)
Inductive pc : Type :=
| L_clear_flag     (* self.completed_flag = False *)
| L_read_start     (* start_time = current_ms() *)
| L_while          (* while current_ms() - start_time < self.duration_ms: *)
| L_sleep_read     (*     time.sleep(random.random() * 0.01) *)
| L_sleep_write    (*     time.sleep(random.random() * 0.01) *)
| L_append         (* self.injected_interval.append({'start': .., 'end': current_ms()}) *)
| L_set_flag       (* self.completed_flag = True *)
| Finished         (* the body has returned *)
| Crashed (e : exn)  (* an exception has ended the thread *).

#[global] Instance pc_eq_dec : EqDecision pc.
Proof. solve_decision. Defined.

(** A thread: its program point and its local [start_time] (meaningful once
    assigned).  [w_reads] is a history variable, never read by the program:
    the values [current_ms()] returned to this thread, newest first. *)
Record worker : Type := {
  w_pc : pc;
  w_start_time : Z;
  w_reads : list Z
}.

Definition new_worker : worker :=
  {| w_pc := L_clear_flag; w_start_time := 0; w_reads := [] |}.

Definition goto (p : pc) (w : worker) : worker :=
  {| w_pc := p; w_start_time := w_start_time w; w_reads := w_reads w |}.

Definition goto_reading (p : pc) (t : Z) (w : worker) : worker :=
  {| w_pc := p; w_start_time := w_start_time w; w_reads := t :: w_reads w |}.

(** ** The system: clock, store, one injector and its threads *)

Record state : Type := {
  now : Z;
  heap : store;
  self : injector;
  threads : list worker
}.

Definition with_self (o : injector) (s : state) : state :=
  {| now := now s; heap := heap s; self := o; threads := threads s |}.

Definition with_heap (h : store) (s : state) : state :=
  {| now := now s; heap := h; self := self s; threads := threads s |}.

Definition with_threads (ts : list worker) (s : state) : state :=
  {| now := now s; heap := heap s; self := self s; threads := ts |}.

Definition with_now (t : Z) (s : state) : state :=
  {| now := t; heap := heap s; self := self s; threads := threads s |}.

(** The system after an assignment [self.valid = b]. *)
Definition with_valid (b : bool) (s : state) : state :=
  with_self (set_valid b (self s)) s.

(** [current_ms()]: the wall clock in milliseconds. *)
Definition current_ms (s : state) : Z := now s.

Module LoadInjector.

(** [__init__]: a new list object is allocated for [injected_interval];
    the [init] hook is empty. *)
Definition __init__ (c : class) (tag duration_ms : value) (h : store)
  : injector * store :=
  let r := fresh (dom h) in
  ({| cls := c; valid := true; tag := tag; duration_ms := duration_ms;
      inj_thread := None; completed_flag := true;
      injected_interval := r |},
   <[r := []]> h).

Definition is_valid (s : state) : bool := valid (self s).

(** [inject]: a new thread on [inject_body] is created and started. *)
Definition inject (s : state) : state :=
  {| now := now s; heap := heap s;
     self := set_inj_thread (Some (length (threads s))) (self s);
     threads := threads s ++ [new_worker] |}.

Definition is_injector_running (s : state) : bool :=
  negb (completed_flag (self s)).

Definition force_close (s : state) : state := s.

(** [get_injections] returns the attribute: a reference. *)
Definition get_injections (s : state) : loc :=
  injected_interval (self s).

End LoadInjector.

(** The list a reference denotes. *)
Definition deref (r : loc) (s : state) : list interval :=
  default [] (heap s !! r).

(** The injector's ledger: the contents of its own list. *)
Definition ledger (s : state) : list interval :=
  deref (injected_interval (self s)) s.

Module SSDLoadInjector.

(** One statement of [inject_body], executed by thread [w]. *)
Definition inject_body (w : worker) (s : state) : option (worker * state) :=
  match w_pc w with
  | L_clear_flag =>
      Some (goto L_read_start w,
            with_self (set_completed_flag false (self s)) s)
  | L_read_start =>
      let t := current_ms s in
      Some ({| w_pc := L_while; w_start_time := t; w_reads := [t] |}, s)
  | L_while =>
      let t := current_ms s in
      match py_int_lt (t - w_start_time w) (duration_ms (self s)) with
      | Return true => Some (goto_reading L_sleep_read t w, s)
      | Return false => Some (goto_reading L_append t w, s)
      | Raise e => Some (goto_reading (Crashed e) t w, s)
      end
  | L_sleep_read => Some (goto L_sleep_write w, s)
  | L_sleep_write => Some (goto L_while w, s)
  | L_append =>
      let t := current_ms s in
      Some (goto_reading L_set_flag t w,
            with_heap
              (py_list_append (injected_interval (self s))
                 {| i_start := w_start_time w; i_end := t |} (heap s)) s)
  | L_set_flag =>
      Some (goto Finished w,
            with_self (set_completed_flag true (self s)) s)
  | Finished | Crashed _ => None
  end.

Definition get_name (s : state) : result string :=
  match py_str_add "[" (tag (self s)) with
  | Return a =>
      Return (((a +:+ "]SSDLoadInjector(d") +:+ py_str (duration_ms (self s)))
                +:+ ")")
  | Raise e => Raise e
  end.

Definition fromJSON (job : gmap string value) (h : store)
  : injector * store :=
  LoadInjector.__init__ SSD
    (match job !! "tag" with Some v => v | None => VStr "" end)
    (match job !! "duration_ms" with Some v => v | None => VInt 1000 end)
    h.

End SSDLoadInjector.

Module RAMLoadInjector.

(** One statement of [inject_body], executed by thread [w]. *)
Definition inject_body (w : worker) (s : state) : option (worker * state) :=
  match w_pc w with
  | L_clear_flag =>
      Some (goto L_read_start w,
            with_self (set_completed_flag false (self s)) s)
  | L_read_start =>
      let t := current_ms s in
      Some ({| w_pc := L_while; w_start_time := t; w_reads := [t] |}, s)
  | L_while =>
      let t := current_ms s in
      match py_int_lt (t - w_start_time w) (duration_ms (self s)) with
      | Return true => Some (goto_reading L_sleep_read t w, s)
      | Return false => Some (goto_reading L_append t w, s)
      | Raise e => Some (goto_reading (Crashed e) t w, s)
      end
  | L_sleep_read => Some (goto L_sleep_write w, s)
  | L_sleep_write => Some (goto L_while w, s)
  | L_append =>
      let t := current_ms s in
      Some (goto_reading L_set_flag t w,
            with_heap
              (py_list_append (injected_interval (self s))
                 {| i_start := w_start_time w; i_end := t |} (heap s)) s)
  | L_set_flag =>
      Some (goto Finished w,
            with_self (set_completed_flag true (self s)) s)
  | Finished | Crashed _ => None
  end.

Definition get_name (s : state) : result string :=
  match py_str_add "[" (tag (self s)) with
  | Return a =>
      Return (((a +:+ "]RAMLoadInjector(d") +:+ py_str (duration_ms (self s)))
                +:+ ")")
  | Raise e => Raise e
  end.

Definition fromJSON (job : gmap string value) (h : store)
  : injector * store :=
  LoadInjector.__init__ RAM
    (match job !! "tag" with Some v => v | None => VStr "" end)
    (match job !! "duration_ms" with Some v => v | None => VInt 1000 end)
    h.

End RAMLoadInjector.

(** The class method [LoadInjector.fromJSON]; [None] is Python's [None], for
    the job as well as for the result. *)
Definition fromJSON (job : option (gmap string value)) (h : store)
  : option injector * store :=
  match job with
  | Some j =>
      match j !! "type" with
      | Some t =>
          if py_in t (list_to_set ["SSD"; "SSDUsage"; "SolidStateDrive"])
          then let '(o, h') := SSDLoadInjector.fromJSON j h in (Some o, h')
          else if py_in t (list_to_set ["RAM"; "RAMUsage"; "Memory"])
          then let '(o, h') := RAMLoadInjector.fromJSON j h in (Some o, h')
          else (None, h)
      | None => (None, h)
      end
  | None => (None, h)
  end.

(** Method resolution on the instance's class. *)
Definition inject_body (w : worker) (s : state) : option (worker * state) :=
  match cls (self s) with
  | SSD => SSDLoadInjector.inject_body w s
  | RAM => RAMLoadInjector.inject_body w s
  end.

Definition get_name (s : state) : result string :=
  match cls (self s) with
  | SSD => SSDLoadInjector.get_name s
  | RAM => RAMLoadInjector.get_name s
  end.

(** ** Runs *)

Inductive action : Type :=
| Tick (dt : Z)        (* the clock advances by [dt] ms; it never goes back *)
| Call_inject          (* the caller invokes [inject()] *)
| Call_force_close     (* the caller invokes [force_close()] *)
| Run (tid : nat)      (* thread [tid] executes its next statement *).

#[global] Instance action_eq_dec : EqDecision action.
Proof. solve_decision. Defined.

(** One action; [None] when the action is not enabled. *)
Definition step (a : action) (s : state) : option state :=
  match a with
  | Tick dt => if 0 <=? dt then Some (with_now (now s + dt) s) else None
  | Call_inject => Some (LoadInjector.inject s)
  | Call_force_close => Some (LoadInjector.force_close s)
  | Run tid =>
      match threads s !! tid with
      | Some w =>
          match inject_body w s with
          | Some (w', s') => Some (with_threads (<[tid := w']> (threads s')) s')
          | None => None
          end
      | None => None
      end
  end.

Fixpoint run (tr : list action) (s : state) : option state :=
  match tr with
  | [] => Some s
  | a :: tr' =>
      match step a s with
      | Some s' => run tr' s'
      | None => None
      end
  end.

(** The system right after a constructor call made at time [t0] in store
    [h]. *)
Definition created (c : class) (tag duration_ms : value) (h : store) (t0 : Z)
  : state :=
  let '(o, h') := LoadInjector.__init__ c tag duration_ms h in
  {| now := t0; heap := h'; self := o; threads := [] |}.

(** The system around an instance a constructor or the factory has just
    returned, at time [t0]. *)
Definition system_of (oh : injector * store) (t0 : Z) : state :=
  {| now := t0; heap := oh.2; self := oh.1; threads := [] |}.

(** A thread that has been started and has not ended. *)
Definition alive (w : worker) : bool :=
  match w_pc w with
  | Finished | Crashed _ => false
  | _ => true
  end.

(** A thread inside the body: past its first statement, not yet returned. *)
Definition in_body (w : worker) : bool :=
  match w_pc w with
  | L_clear_flag | Finished | Crashed _ => false
  | _ => true
  end.

(** A thread that has appended its entry. *)
Definition appended (w : worker) : bool :=
  match w_pc w with
  | L_set_flag | Finished => true
  | _ => false
  end.

Definition alive_count (s : state) : nat :=
  length (filter (λ w, alive w = true) (threads s)).

(** ** Notions used in the statements *)

(** The attributes that no method assigns after construction. *)
Definition same_config (o o' : injector) : Prop :=
  cls o' = cls o ∧ valid o' = valid o ∧ tag o' = tag o ∧
  duration_ms o' = duration_ms o ∧
  injected_interval o' = injected_interval o.

(** Differences of neighbours in a list of clock values, newest first. *)
Fixpoint diffs (l : list Z) : list Z :=
  match l with
  | a :: tl => match tl with
               | b :: _ => (a - b) :: diffs tl
               | [] => []
               end
  | [] => []
  end.

Definition maximum (l : list Z) : Z := foldr Z.max 0 l.

(** The reads of a thread that has appended are, newest first: the read
    stored as ['end'], the reads of the loop condition, the read stored as
    [start_time].  The clock advance over one loop iteration is the
    difference of two successive reads of the loop condition. *)
Definition loop_checks (w : worker) : list Z := removelast (tail (w_reads w)).

Definition max_increment (w : worker) : Z := maximum (diffs (loop_checks w)).

(** The largest clock advance between two successive reads of a thread. *)
Definition max_gap (w : worker) : Z := maximum (diffs (w_reads w)).


(** Two entries whose time windows meet. *)
Definition overlap (e1 e2 : interval) : Prop :=
  i_start e1 ≤ i_end e2 ∧ i_start e2 ≤ i_end e1.

(** The number of [inject()] calls in a run. *)
Definition inject_calls (tr : list action) : nat :=
  length (filter (λ a, a = Call_inject) tr).

(** What the query methods [is_valid], [is_injector_running], [get_name] and
    [get_injections] (the list it refers to) give the caller. *)
Definition observe (s : state)
  : bool * bool * result string * list interval :=
  (LoadInjector.is_valid s, LoadInjector.is_injector_running s, get_name s,
   deref (LoadInjector.get_injections s) s).

(** A thread that has executed its first statement and has not returned. *)
Definition unfinished (w : worker) : bool :=
  match w_pc w with
  | L_clear_flag | Finished => false
  | _ => true
  end.

(** What holds of a thread at each program point: [p], [c], [e] are its
    latest reads, oldest first. *)
Definition worker_ok (s : state) (w : worker) : Prop :=
  match w_pc w with
  | L_clear_flag | L_read_start => True
  | Crashed _ => as_int (duration_ms (self s)) = None
  | L_while | L_sleep_read | L_sleep_write =>
      ∃ p rest, w_reads w = p :: rest ∧
        w_start_time w ≤ p ∧ p ≤ now s ∧
        (∀ d, as_int (duration_ms (self s)) = Some d → 0 ≤ d →
              p - w_start_time w ≤ d)
  | L_append =>
      ∃ c p rest, w_reads w = c :: p :: rest ∧
        w_start_time w ≤ p ∧ p ≤ c ∧ c ≤ now s ∧
        (∀ d, as_int (duration_ms (self s)) = Some d →
              d ≤ c - w_start_time w ∧
              (0 ≤ d → p - w_start_time w ≤ d))
  | L_set_flag | Finished =>
      ∃ e c p rest, w_reads w = e :: c :: p :: rest ∧
        w_start_time w ≤ p ∧ p ≤ c ∧ c ≤ e ∧
        {| i_start := w_start_time w; i_end := e |} ∈ ledger s ∧
        (∀ d, as_int (duration_ms (self s)) = Some d →
              d ≤ c - w_start_time w ∧
              (0 ≤ d → p - w_start_time w ≤ d))
  end.

(** The entry a thread appends. *)
Definition entry_of (w : worker) (e : interval) : Prop :=
  appended w = true ∧ w_start_time w = i_start e ∧
  head (w_reads w) = Some (i_end e).

Record inv (s : state) : Prop := {
  inv_heap : is_Some (heap s !! injected_interval (self s));
  inv_workers : Forall (worker_ok s) (threads s);
  inv_ledger :
    Forall (λ e, ∃ i w, threads s !! i = Some w ∧ entry_of w e) (ledger s);
  inv_flag :
    completed_flag (self s) = false →
    ∃ i w, threads s !! i = Some w ∧ unfinished w = true
}.

(** ** Driving a thread to its end *)

(** The statements a thread at a given program point still has to execute
    when the loop condition fails at its next evaluation. *)
Definition rank (p : pc) : nat :=
  match p with
  | L_clear_flag => 5
  | L_read_start => 4
  | L_while => 3
  | L_sleep_read => 5
  | L_sleep_write => 4
  | L_append => 2
  | L_set_flag => 1
  | Finished | Crashed _ => 0
  end.

(** The next statement of thread [tid]; before the loop condition, time
    passes until the duration is over. *)
Definition advance (tid : nat) (s : state) : list action :=
  match threads s !! tid with
  | Some w =>
      match w_pc w with
      | L_while =>
          [ Tick (Z.max 0 (w_start_time w
                           + default 0 (as_int (duration_ms (self s)))
                           - now s));
            Run tid ]
      | Finished | Crashed _ => []
      | _ => [ Run tid ]
      end
  | None => []
  end.

Fixpoint drive (n : nat) (tid : nat) (s : state) : list action :=
  match n with
  | O => []
  | S n' =>
      let tr := advance tid s in
      tr ++ drive n' tid (default s (run tr s))
  end.

(** ** Sample instances and runs *)

(** [SSDLoadInjector(tag='x', duration_ms=5)], built at time 0 in an empty
    store. *)
Definition ssd_x_5 : state := created SSD (VStr "x") (VInt 5) ∅ 0.

(** The state a run ends in (the starting state if the run is not
    possible). *)
Definition final (tr : list action) (s : state) : state :=
  default s (run tr s).

(** One injection: two loop iterations of 4 ms each, the loop condition
    fails at 8 ms, and 3 more ms pass before the clock is read for
    ['end']. *)
Definition one_run : list action :=
  [ Call_inject; Run 0; Run 0;
    Run 0; Run 0; Tick 4; Run 0;
    Run 0; Run 0; Tick 4; Run 0;
    Run 0;
    Tick 3; Run 0;
    Run 0 ].

(** The same injection up to its first statement: the flag is cleared and
    the thread is in the body. *)
Definition started : list action := [ Call_inject; Run 0 ].

(** [inject()] called again while the first thread is in the body; both
    threads then run to their end. *)
Definition double_start : list action :=
  [ Call_inject; Run 0; Run 0;
    Call_inject; Tick 1; Run 1; Run 1;
    Tick 5;
    Run 0; Run 1; Run 0; Run 1; Run 0; Run 1 ].


(** The job description [{"type": "Memory", "tag": "t1", "duration_ms": 200}]. *)
Definition job_memory : gmap string value :=
  <["type" := VStr "Memory"]>
    (<["tag" := VStr "t1"]> (<["duration_ms" := VInt 200]> ∅)).

(** A thread that has not left the loop: at one of the first three
    statements, or ended by an exception. *)
Definition not_past_loop (w : worker) : bool :=
  match w_pc w with
  | L_clear_flag | L_read_start | L_while | Crashed _ => true
  | _ => false
  end.

(** * The warning level of [anomaly_detector.py]

    [SystemMonitorInjector.monitor_and_detect] loops for ever over the
    readings of the system.  What a pass of the loop gets from outside is an
    [observation]: the verdict of [_detect_anomaly] on the data of
    [monitor_system] (the classifier is not modelled), with the text of
    [datetime.datetime.now()] that [_log_warning] would print; or an
    exception raised by either, with the traceback printed by the handler.
    The state is the attributes the loop assigns, with what has been written
    to [warnings.log] and printed; the log of raw predictions, whose text
    holds floating-point numbers, is left out. *)

(** The line feed and the carriage return. *)
Definition LF : string := String (Ascii.ascii_of_nat 10) "".
Definition CR : string := String (Ascii.ascii_of_nat 13) "".

(** [s * n] on a [str]. *)
Fixpoint py_str_mul (s : string) (n : nat) : string :=
  match n with
  | O => ""
  | S n' => s +:+ py_str_mul s n'
  end.

Module SystemMonitorInjector.

Inductive observation : Type :=
| Verdict (is_anomaly : bool) (stamp : string)
| Failure (traceback : string).

(** [warning_log] holds the strings written to [warnings.log], [stdout]
    the strings printed (each with its [end]), oldest first; [closed] tells
    that the log files have been closed. *)
Record monitor : Type := {
  warning_threshold : Z;
  warning_level : Z;
  last_printed_length : nat;
  to_remove : Z;
  warning_log : list string;
  stdout : list string;
  closed : bool
}.

Definition __init__ (warning_threshold : Z) : monitor :=
  {| warning_threshold := warning_threshold; warning_level := 0;
     last_printed_length := 0; to_remove := 1;
     warning_log := []; stdout := []; closed := false |}.

Definition _log_warning (stamp : string) (level : Z) (m : monitor) : monitor :=
  let to_print :=
    ("[" +:+ stamp +:+ "] ") +:+ ("WARNING!!! (Level " +:+ pretty level +:+ ")")
  in
  {| warning_threshold := warning_threshold m;
     warning_level := warning_level m;
     last_printed_length := String.length to_print;
     to_remove := to_remove m;
     warning_log := warning_log m ++ [to_print +:+ LF];
     stdout := stdout m; closed := closed m |}.

Definition _check_and_print_warning (stamp : string) (m : monitor) : monitor :=
  if warning_threshold m <? warning_level m
  then _log_warning stamp (warning_level m) m
  else
    let to_print := py_str_mul " " (last_printed_length m + 1) in
    {| warning_threshold := warning_threshold m;
       warning_level := warning_level m;
       last_printed_length := 0;
       to_remove := to_remove m;
       warning_log := warning_log m;
       stdout := stdout m ++ [to_print +:+ CR]; closed := closed m |}.

(** The two assignments of a pass: [warning_level], then [to_remove]. *)
Definition update (is_anomaly : bool) (m : monitor) : monitor :=
  let level :=
    if is_anomaly then warning_level m + 1
    else Z.max (warning_level m - to_remove m) 0 in
  let remove :=
    if is_anomaly then 1
    else if 0 <? level then to_remove m * 2 else 1 in
  {| warning_threshold := warning_threshold m;
     warning_level := level;
     last_printed_length := last_printed_length m;
     to_remove := remove;
     warning_log := warning_log m; stdout := stdout m; closed := closed m |}.

(** One pass of the [while True] loop. *)
Definition loop_body (is_anomaly : bool) (stamp : string) (m : monitor)
  : monitor :=
  _check_and_print_warning stamp (update is_anomaly m).

(** The [except] clause: the traceback is printed, the files are closed. *)
Definition handler (traceback : string) (m : monitor) : monitor :=
  {| warning_threshold := warning_threshold m;
     warning_level := warning_level m;
     last_printed_length := last_printed_length m;
     to_remove := to_remove m;
     warning_log := warning_log m;
     stdout := stdout m ++ [traceback +:+ LF]; closed := true |}.

(** [monitor_and_detect] over the observations made so far: the loop goes
    on until an exception ends it. *)
Fixpoint monitor_and_detect (obs : list observation) (m : monitor) : monitor :=
  match obs with
  | [] => m
  | Verdict is_anomaly stamp :: rest =>
      monitor_and_detect rest (loop_body is_anomaly stamp m)
  | Failure traceback :: _ => handler traceback m
  end.

End SystemMonitorInjector.

(** Observations without an exception. *)
Definition verdicts (l : list (bool * string))
  : list SystemMonitorInjector.observation :=
  (λ p, SystemMonitorInjector.Verdict p.1 p.2) <$> l.

(** The anomalies among the observations. *)
Definition is_alarm (o : SystemMonitorInjector.observation) : bool :=
  match o with
  | SystemMonitorInjector.Verdict true _ => true
  | _ => false
  end.

Definition anomalies (obs : list SystemMonitorInjector.observation) : Z :=
  Z.of_nat (length (filter (λ o, is_alarm o = true) obs)).

(** The text [_log_warning] writes for a time stamp and a level. *)
Definition warning_line (stamp : string) (level : Z) : string :=
  (("[" +:+ stamp +:+ "] ") +:+ ("WARNING!!! (Level " +:+ pretty level +:+ ")"))
  +:+ LF.

(** No two anomalies in a row. *)
Fixpoint isolated (l : list (bool * string)) : bool :=
  match l with
  | (true, _) :: ((true, _) :: _) => false
  | _ :: rest => isolated rest
  | [] => true
  end.

(** What the loop keeps true of its counters. *)
Definition counters_ok (m : SystemMonitorInjector.monitor) : Prop :=
  0 ≤ SystemMonitorInjector.warning_level m ∧
  (∃ k : nat, SystemMonitorInjector.to_remove m = 2 ^ Z.of_nat k) ∧
  (SystemMonitorInjector.warning_level m = 0 →
   SystemMonitorInjector.to_remove m = 1).

(** ** Basic facts *)

Lemma inject_body_dispatch w s :
  inject_body w s = SSDLoadInjector.inject_body w s.
Proof. unfold inject_body. by destruct (cls (self s)). Qed.

Lemma run_app tr1 tr2 s :
  run (tr1 ++ tr2) s = run tr1 s ≫= run tr2.
Proof.
  revert s. induction tr1 as [|a tr1 IH]; intros s; simpl; [done|].
  destruct (step a s); simpl; auto.
Qed.

(** Induction along a run. *)
Lemma run_invariant (P : state → Prop) :
  (∀ a s s', P s → step a s = Some s' → P s') →
  ∀ tr s s', P s → run tr s = Some s' → P s'.
Proof.
  intros Hstep tr. induction tr as [|a tr IH]; intros s s' HP Hrun; simpl in *.
  - by simplify_eq.
  - destruct (step a s) as [s1|] eqn:E; [|done]. eauto.
Qed.

(** A [Run] step, taken apart. *)
Lemma step_Run_inv tid s s' :
  step (Run tid) s = Some s' →
  ∃ w w' s1, threads s !! tid = Some w ∧
    SSDLoadInjector.inject_body w s = Some (w', s1) ∧
    s' = with_threads (<[tid := w']> (threads s1)) s1.
Proof.
  unfold step. destruct (threads s !! tid) as [w|] eqn:Hw; [|done].
  rewrite inject_body_dispatch.
  destruct (SSDLoadInjector.inject_body w s) as [[w' s1]|] eqn:Hb; [|done].
  intros [= <-]. by exists w, w', s1.
Qed.

(** What one statement of the body can do to the state. *)
Lemma inject_body_effect w s w' s1 :
  SSDLoadInjector.inject_body w s = Some (w', s1) →
  now s1 = now s ∧ threads s1 = threads s ∧
  same_config (self s) (self s1) ∧
  inj_thread (self s1) = inj_thread (self s) ∧
  ((heap s1 = heap s ∧ w_pc w ≠ L_append) ∨
   (self s1 = self s ∧ w_pc w = L_append ∧ w_pc w' = L_set_flag ∧
    w_start_time w' = w_start_time w ∧ w_reads w' = now s :: w_reads w ∧
    heap s1 = py_list_append (injected_interval (self s))
                {| i_start := w_start_time w; i_end := now s |} (heap s))).
Proof.
  unfold SSDLoadInjector.inject_body, same_config, current_ms.
  destruct (w_pc w) eqn:Hpc; try done;
    try (intros [= <- <-]; simpl; naive_solver).
  destruct (py_int_lt _ _) as [[]|]; intros [= <- <-]; simpl; naive_solver.
Qed.

Lemma step_same_config a s s' :
  step a s = Some s' → same_config (self s) (self s').
Proof.
  destruct a as [dt| | |tid]; simpl.
  - case_match; [|done]. by intros [= <-].
  - by intros [= <-].
  - by intros [= <-].
  - intros (w & w' & s1 & _ & Hb & ->)%step_Run_inv.
    by apply inject_body_effect in Hb as (_ & _ & ? & _).
Qed.

Lemma same_config_refl o : same_config o o.
Proof. done. Qed.

Lemma same_config_trans o1 o2 o3 :
  same_config o1 o2 → same_config o2 o3 → same_config o1 o3.
Proof.
  intros (?&?&?&?&?) (?&?&?&?&?). repeat split; congruence.
Qed.

Lemma run_same_config tr s s' :
  run tr s = Some s' → same_config (self s) (self s').
Proof.
  revert s. induction tr as [|a tr IH]; intros s; simpl.
  - intros [= <-]. apply same_config_refl.
  - destruct (step a s) as [s1|] eqn:E; [|done]. intros H.
    eapply same_config_trans; [by eapply step_same_config|by apply IH].
Qed.

(** ** The invariant *)

Lemma py_int_lt_Return x v b :
  py_int_lt x v = Return b → ∃ d, as_int v = Some d ∧ b = (x <? d).
Proof.
  unfold py_int_lt. destruct (as_int v) as [d|]; [|done].
  intros [= <-]. eauto.
Qed.

Lemma py_int_lt_Raise x v e :
  py_int_lt x v = Raise e → as_int v = None.
Proof. unfold py_int_lt. by destruct (as_int v). Qed.

Lemma deref_append r e s :
  is_Some (heap s !! r) →
  deref r (with_heap (py_list_append r e (heap s)) s) = deref r s ++ [e].
Proof.
  intros [l Hl]. unfold deref, py_list_append. simpl.
  by rewrite lookup_alter_eq, Hl.
Qed.


Lemma inject_body_ledger w s w' s1 :
  SSDLoadInjector.inject_body w s = Some (w', s1) →
  ∃ l, ledger s1 = ledger s ++ l.
Proof.
  intros Hb.
  pose proof (inject_body_effect _ _ _ _ Hb)
    as (_ & _ & (_ & _ & _ & _ & Hloc) & _ & Heff).
  unfold ledger, deref. rewrite Hloc.
  destruct Heff as [[-> _]|(_ & _ & _ & _ & _ & ->)].
  - exists []. by rewrite app_nil_r.
  - unfold py_list_append. rewrite lookup_alter_eq.
    destruct (heap s !! injected_interval (self s)) as [l|]; simpl.
    + by eexists.
    + by exists [].
Qed.

Lemma worker_ok_mono s s' w :
  now s ≤ now s' →
  duration_ms (self s') = duration_ms (self s) →
  (∀ x, x ∈ ledger s → x ∈ ledger s') →
  worker_ok s w → worker_ok s' w.
Proof.
  intros Hnow Hd Hsub. unfold worker_ok. rewrite Hd.
  destruct (w_pc w); try done.
  - intros (p & rest & ? & ? & ? & ?). exists p, rest. split_and!; auto; lia.
  - intros (p & rest & ? & ? & ? & ?). exists p, rest. split_and!; auto; lia.
  - intros (p & rest & ? & ? & ? & ?). exists p, rest. split_and!; auto; lia.
  - intros (c & p & rest & ? & ? & ? & ? & ?).
    exists c, p, rest. split_and!; auto; lia.
  - intros (e & c & p & rest & ? & ? & ? & ? & ? & ?).
    exists e, c, p, rest. split_and!; auto.
  - intros (e & c & p & rest & ? & ? & ? & ? & ? & ?).
    exists e, c, p, rest. split_and!; auto.
Qed.

(** The thread that executes a statement is in order afterwards. *)
Lemma worker_ok_step w s w' s1 :
  is_Some (heap s !! injected_interval (self s)) →
  worker_ok s w →
  SSDLoadInjector.inject_body w s = Some (w', s1) →
  worker_ok s1 w'.
Proof.
  intros Hh.
  unfold SSDLoadInjector.inject_body, worker_ok, current_ms.
  destruct (w_pc w) eqn:Hpc; try done.
  - (* self.completed_flag = False *)
    by intros _ [= <- <-].
  - (* start_time = current_ms() *)
    intros _ [= <- <-]. simpl. exists (now s), []. split_and!; auto; lia.
  - (* the loop condition *)
    intros (p & rest & Hr & Hsp & Hpn & Hd).
    destruct (py_int_lt _ _) as [[]|] eqn:Hlt; intros [= <- <-]; simpl;
      [| |by apply py_int_lt_Raise in Hlt];
      apply py_int_lt_Return in Hlt as (d & Hdur & Hcmp).
    + exists (now s), (w_reads w). split_and!; auto; try lia.
      intros d' Hd' _. assert (d' = d) as -> by congruence. lia.
    + exists (now s), p, rest. rewrite Hr. split_and!; auto; try lia.
      intros d' Hd'. assert (d' = d) as -> by congruence.
      split; [lia|]. intros. by apply Hd.
  - intros H [= <- <-]. done.
  - intros H [= <- <-]. done.
  - (* append *)
    intros (c & p & rest & Hr & ? & ? & ? & Hd) [= <- <-]. simpl.
    exists (now s), c, p, rest. rewrite Hr. split_and!; auto.
    unfold ledger. simpl. rewrite (deref_append _ _ s Hh).
    apply elem_of_app. right. by apply list_elem_of_singleton.
  - (* self.completed_flag = True *)
    intros H [= <- <-]. done.
Qed.

Lemma entry_of_step w s w' s1 e :
  entry_of w e →
  SSDLoadInjector.inject_body w s = Some (w', s1) →
  entry_of w' e.
Proof.
  unfold entry_of, appended, SSDLoadInjector.inject_body.
  intros (Hap & Hs & Hr). destruct (w_pc w); try done.
  by intros [= <- <-].
Qed.

Lemma unfinished_step w s w' s1 :
  SSDLoadInjector.inject_body w s = Some (w', s1) →
  completed_flag (self s1) = false →
  unfinished w' = true.
Proof.
  unfold SSDLoadInjector.inject_body, unfinished.
  destruct (w_pc w); try done; try by intros [= <- <-].
  destruct (py_int_lt _ _) as [[]|]; by intros [= <- <-].
Qed.

Lemma inv_created c tg d h t0 : inv (created c tg d h t0).
Proof.
  split; simpl.
  - rewrite lookup_insert_eq. eauto.
  - constructor.
  - unfold ledger, deref. simpl. rewrite lookup_insert_eq. constructor.
  - done.
Qed.

Lemma inv_Tick dt s : 0 ≤ dt → inv s → inv (with_now (now s + dt) s).
Proof.
  intros Hdt [Hh Hw Hl Hf]. split; simpl; auto.
  eapply Forall_impl; [exact Hw|]. intros w.
  apply worker_ok_mono; simpl; [lia|done|done].
Qed.

Lemma inv_inject s : inv s → inv (LoadInjector.inject s).
Proof.
  intros [Hh Hw Hl Hf]. split; simpl; auto.
  - apply Forall_app. split.
    + eapply Forall_impl; [exact Hw|]. intros w. by apply worker_ok_mono.
    + by repeat constructor.
  - eapply Forall_impl; [exact Hl|]. intros e (i & w & Hi & He).
    exists i, w. split; [|done]. by apply lookup_app_l_Some.
  - intros Hc. destruct (Hf Hc) as (i & w & Hi & Hu).
    exists i, w. split; [|done]. by apply lookup_app_l_Some.
Qed.

Lemma inv_Run tid s s' : inv s → step (Run tid) s = Some s' → inv s'.
Proof.
  intros [Hh Hw Hl Hf] (w & w' & s1 & Hlook & Hb & ->)%step_Run_inv.
  pose proof (lookup_lt_Some _ _ _ Hlook) as Hlen.
  pose proof (inject_body_effect _ _ _ _ Hb)
    as (Hnow & Hth & (_ & _ & _ & Hdur & Hloc) & _ & Heff).
  destruct (inject_body_ledger _ _ _ _ Hb) as [lnew Hlnew].
  assert (∀ x, x ∈ ledger s → x ∈ ledger s1) as Hsub.
  { intros x Hx. rewrite Hlnew. apply elem_of_app. by left. }
  split; simpl.
  - (* the list object stays allocated *)
    rewrite Hloc. destruct Heff as [[-> _]|(_ & _ & _ & _ & _ & ->)]; [done|].
    unfold py_list_append. rewrite lookup_alter_eq.
    by apply fmap_is_Some.
  - (* threads *)
    rewrite Hth. apply Forall_insert.
    + eapply Forall_impl; [exact Hw|]. intros w0.
      apply worker_ok_mono; simpl; [lia|done|done].
    + eapply worker_ok_mono; [| | |eapply worker_ok_step; [exact Hh| |exact Hb]];
        simpl; [lia|done|done|].
      eapply Forall_lookup_1; [exact Hw|exact Hlook].
  - (* ledger entries and their threads *)
    assert (∀ e, (∃ i w0, threads s !! i = Some w0 ∧ entry_of w0 e) →
                 ∃ i w0, <[tid := w']> (threads s1) !! i = Some w0 ∧
                         entry_of w0 e) as Hold.
    { intros e (i & w0 & Hi & He). rewrite Hth.
      destruct (decide (i = tid)) as [->|Hne].
      - exists tid, w'. rewrite list_lookup_insert_eq by done.
        split; [done|]. assert (w0 = w) as -> by congruence.
        by eapply entry_of_step.
      - exists i, w0. by rewrite list_lookup_insert_ne. }
    unfold ledger, deref in *. simpl. rewrite Hloc.
    destruct Heff as [[-> _]|(_ & Hpc & Hpc' & Hst & Hrd & ->)].
    + eapply Forall_impl; [exact Hl|]. exact Hold.
    + destruct Hh as [l Hl']. rewrite Hl' in Hl. simpl in Hl.
      unfold py_list_append. rewrite lookup_alter_eq, Hl'. simpl.
      apply Forall_app. split.
      * eapply Forall_impl; [exact Hl|]. exact Hold.
      * constructor; [|constructor]. exists tid, w'. rewrite Hth.
        rewrite list_lookup_insert_eq by done. split; [done|].
        unfold entry_of, appended. rewrite Hpc', Hst, Hrd. done.
  - (* the flag *)
    intros Hc. exists tid, w'. rewrite Hth.
    rewrite list_lookup_insert_eq by done. split; [done|].
    by eapply unfinished_step.
Qed.

Lemma inv_step a s s' : inv s → step a s = Some s' → inv s'.
Proof.
  destruct a as [dt| | |tid]; simpl.
  - destruct (0 <=? dt) eqn:E; [|done]. intros Hi [= <-].
    apply inv_Tick; [lia|done].
  - intros Hi [= <-]. by apply inv_inject.
  - by intros Hi [= <-].
  - apply inv_Run.
Qed.

Lemma inv_run tr s s' : inv s → run tr s = Some s' → inv s'.
Proof. apply run_invariant. intros a s0 s1. apply inv_step. Qed.

Lemma inv_reachable c tg d h t0 tr s :
  run tr (created c tg d h t0) = Some s → inv s.
Proof. apply inv_run, inv_created. Qed.

(** ** The ledger *)



(** No list object other than the injector's own is touched. *)
Lemma step_frame a s s' r :
  step a s = Some s' →
  r ≠ injected_interval (self s) →
  heap s' !! r = heap s !! r.
Proof.
  intros Hstep Hne. destruct a as [dt| | |tid]; simpl in Hstep.
  - destruct (0 <=? dt); [|done]. by injection Hstep as <-.
  - by injection Hstep as <-.
  - by injection Hstep as <-.
  - apply step_Run_inv in Hstep as (w & w' & s1 & _ & Hb & ->).
    apply inject_body_effect in Hb
      as (_ & _ & _ & _ & [[Hh _]|(_ & _ & _ & _ & _ & Hh)]);
      simpl; rewrite Hh; [done|].
    unfold py_list_append. by rewrite lookup_alter_ne.
Qed.

Lemma run_frame tr s s' r :
  run tr s = Some s' →
  r ≠ injected_interval (self s) →
  heap s' !! r = heap s !! r.
Proof.
  revert s. induction tr as [|a tr IH]; intros s; simpl.
  - by intros [= <-].
  - destruct (step a s) as [s1|] eqn:E; [|done]. intros Hrun Hne.
    pose proof (step_same_config _ _ _ E) as (_ & _ & _ & _ & Hloc).
    rewrite (IH s1 Hrun) by congruence. by eapply step_frame.
Qed.



(** ** Threads run to their end *)

Lemma step_Run_at tid s w w' s1 :
  threads s !! tid = Some w →
  SSDLoadInjector.inject_body w s = Some (w', s1) →
  step (Run tid) s = Some (with_threads (<[tid := w']> (threads s1)) s1) ∧
  <[tid := w']> (threads s1) !! tid = Some w'.
Proof.
  intros Hw Hb. simpl. rewrite Hw, inject_body_dispatch, Hb. split; [done|].
  apply inject_body_effect in Hb as (_ & -> & _).
  apply list_lookup_insert_eq. by eapply lookup_lt_Some.
Qed.

Lemma advance_progress tid s w d :
  threads s !! tid = Some w →
  as_int (duration_ms (self s)) = Some d →
  (∀ e, w_pc w ≠ Crashed e) →
  ∃ s' w', run (advance tid s) s = Some s' ∧
    threads s' !! tid = Some w' ∧
    as_int (duration_ms (self s')) = Some d ∧
    (∀ e, w_pc w' ≠ Crashed e) ∧
    (rank (w_pc w') < rank (w_pc w) ∨ w_pc w' = Finished)%nat.
Proof.
  intros Hw Hd Hnc. unfold advance. rewrite Hw.
  destruct (w_pc w) eqn:Hpc.
  all: try (edestruct (step_Run_at tid s w) as [Hstep Hlook];
            [exact Hw
            |unfold SSDLoadInjector.inject_body; rewrite Hpc; reflexivity|];
            unfold run; rewrite Hstep;
            eexists _, _; split; [reflexivity|];
            split; [exact Hlook|]; simpl;
            split; [exact Hd|];
            split; [intros e'; discriminate|left; lia]).
  - (* the loop condition, once the duration is over *)
    rewrite Hd. simpl default.
    set (dt := Z.max 0 (w_start_time w + d - now s)).
    set (s1 := with_now (now s + dt) s).
    assert (py_int_lt (current_ms s1 - w_start_time w) (duration_ms (self s1))
            = Return false) as Hlt.
    { unfold py_int_lt. simpl. rewrite Hd. f_equal.
      apply Z.ltb_ge. unfold current_ms. simpl. lia. }
    edestruct (step_Run_at tid s1 w) as [Hstep Hlook]; [exact Hw| |].
    { unfold SSDLoadInjector.inject_body. rewrite Hpc, Hlt. reflexivity. }
    unfold run, step at 1. fold (step (Run tid)).
    replace (0 <=? dt) with true by (symmetry; apply Z.leb_le; lia).
    fold s1. rewrite Hstep.
    eexists _, _. split; [reflexivity|]. split; [exact Hlook|]. simpl.
    split; [exact Hd|]. split; [intros e'; discriminate|left; lia].
  - (* returned *)
    exists s, w. simpl.
    split_and!; [done|done|done|by rewrite Hpc|by right].
  - (* crashed: excluded *)
    by destruct (Hnc e).
Qed.

Lemma drive_finishes n tid s w d :
  threads s !! tid = Some w →
  as_int (duration_ms (self s)) = Some d →
  (∀ e, w_pc w ≠ Crashed e) →
  (rank (w_pc w) ≤ n)%nat →
  ∃ s' w', run (drive n tid s) s = Some s' ∧
    threads s' !! tid = Some w' ∧ w_pc w' = Finished.
Proof.
  revert s w. induction n as [|n IH]; intros s w Hw Hd Hnc Hr.
  - exists s, w. split_and!; auto.
    destruct (w_pc w) eqn:Hpc; simpl in Hr; try lia; [done|].
    by destruct (Hnc e).
  - destruct (advance_progress tid s w d Hw Hd Hnc)
      as (s1 & w1 & Hrun & Hw1 & Hd1 & Hnc1 & Hrk).
    simpl. rewrite run_app, Hrun. simpl.
    destruct Hrk as [Hlt|Hfin].
    + apply (IH s1 w1); auto. lia.
    + apply (IH s1 w1); auto. rewrite Hfin. simpl. lia.
Qed.

(** X3. Whatever the state of an instance with a numeric duration, any of
    its threads runs to the end of the body once enough time passes: five
    statements at most remain when the loop condition fails. *)
Lemma thread_runs_to_completion k tg d h t0 tr s tid w z :
  run tr (created k tg d h t0) = Some s →
  as_int d = Some z →
  threads s !! tid = Some w →
  ∃ s' w', run (drive 5 tid s) s = Some s' ∧
    threads s' !! tid = Some w' ∧ w_pc w' = Finished.
Proof.
  intros Hrun Hz Hw.
  pose proof (run_same_config _ _ _ Hrun) as (_ & _ & _ & Hdur & _).
  pose proof (inv_reachable _ _ _ _ _ _ _ Hrun) as [_ Hok _ _].
  pose proof (Forall_lookup_1 _ _ _ _ Hok Hw) as Hwok.
  apply (drive_finishes 5 tid s w z); auto.
  - by rewrite Hdur.
  - intros e He. unfold worker_ok in Hwok. rewrite He, Hdur in Hwok.
    simpl in Hwok. congruence.
  - destruct (w_pc w); simpl; lia.
Qed.

(** ** Properties of the ledger and of a run of the body *)






(** Nor is the entry bounded by [d] plus the largest advance between any
    two successive reads of the thread: two such advances add up. *)
Lemma single_gap_bound_fails :
  ∃ w e, threads (final one_run ssd_x_5) = [w] ∧
    last (ledger (final one_run ssd_x_5)) = Some e ∧
    max_increment w ≤ max_gap w ∧
    ¬ (i_end e - i_start e ≤ 5 + max_gap w).
Proof.
  eexists _, _. split; [vm_compute; reflexivity|].
  split; [vm_compute; reflexivity|].
  split; [vm_compute; discriminate|]. vm_compute. intros H. by apply H.
Qed.

(** A duration that is not a number: the comparison of the loop condition
    raises, the thread ends there, and the instance stays running. *)
Lemma non_numeric_duration_crashes :
  let s := final [Call_inject; Run 0; Run 0; Run 0]
             (created SSD (VStr "x") (VStr "1000") ∅ 0) in
  (w_pc <$> threads s) = [Crashed TypeError] ∧
  LoadInjector.is_injector_running s = true ∧
  ledger s = [].
Proof. vm_compute. done. Qed.

(** With a duration of 0 the loop body never runs, and the entry still
    lasts as long as the clock advances between the read of ['start'] and
    the read of ['end']. *)
Lemma zero_duration_entry :
  ledger (final [Call_inject; Run 0; Run 0; Run 0; Tick 1; Run 0; Run 0]
            (created SSD (VStr "x") (VInt 0) ∅ 0))
  = [ {| i_start := 0; i_end := 1 |} ].
Proof. vm_compute; reflexivity. Qed.

(** ** Names *)

Lemma append_assoc (a b c : string) : (a +:+ b) +:+ c = a +:+ (b +:+ c).
Proof.
  induction a as [|x a IH]; [done|].
  change (String x ((a +:+ b) +:+ c) = String x (a +:+ (b +:+ c))).
  by rewrite IH.
Qed.

Lemma get_name_config s s' :
  same_config (self s) (self s') → get_name s' = get_name s.
Proof.
  intros (Hc & _ & Ht & Hd & _).
  unfold get_name, SSDLoadInjector.get_name, RAMLoadInjector.get_name.
  by rewrite Hc, Ht, Hd.
Qed.



Lemma get_name_RAM_example :
  get_name (created RAM (VStr "t1") (VInt 200) ∅ 0)
  = Return "[t1]RAMLoadInjector(d200)".
Proof. vm_compute; reflexivity. Qed.

(** ** The factory *)


(** C8. The instance a variant's [fromJSON] builds has the job's ["tag"]
    value as tag, or [''] when the key is absent, and the job's
    ["duration_ms"] value as duration, or [1000] when the key is absent; it
    is valid, not running, and owns a new, empty list. *)
Theorem variant_fromJSON_fields (j : gmap string value) (h : store) :
  let ssd := SSDLoadInjector.fromJSON j h in
  let ram := RAMLoadInjector.fromJSON j h in
  (cls ssd.1 = SSD ∧ cls ram.1 = RAM) ∧
  (tag ssd.1 = default (VStr "") (j !! "tag") ∧
   tag ram.1 = default (VStr "") (j !! "tag")) ∧
  (duration_ms ssd.1 = default (VInt 1000) (j !! "duration_ms") ∧
   duration_ms ram.1 = default (VInt 1000) (j !! "duration_ms")) ∧
  (valid ssd.1 = true ∧ valid ram.1 = true) ∧
  (completed_flag ssd.1 = true ∧ completed_flag ram.1 = true) ∧
  (h !! injected_interval ssd.1 = None ∧
   ssd.2 = <[injected_interval ssd.1 := []]> h) ∧
  (h !! injected_interval ram.1 = None ∧
   ram.2 = <[injected_interval ram.1 := []]> h).
Proof.
  simpl. split_and!; try done; apply not_elem_of_dom, is_fresh.
Qed.



(** The job [{"type": "Memory", "tag": "t1", "duration_ms": 200}] from
    the factory to the ledger: a valid RAM injector which, started and left
    to run, records one entry of 200 ms and is no longer running. *)
Lemma memory_job_scenario :
  let oh := RAMLoadInjector.fromJSON job_memory ∅ in
  let s0 := system_of oh 0 in
  let s := final (Call_inject :: drive 5 0 (LoadInjector.inject s0)) s0 in
  fromJSON (Some job_memory) ∅ = (Some oh.1, oh.2) ∧
  s0 = created RAM (VStr "t1") (VInt 200) ∅ 0 ∧
  LoadInjector.is_valid s = true ∧
  LoadInjector.is_injector_running s = false ∧
  ledger s = [ {| i_start := 0; i_end := 200 |} ] ∧
  get_name s = Return "[t1]RAMLoadInjector(d200)".
Proof. vm_compute. by split_and!. Qed.


(** ** Before the first [inject()] *)

Lemma run_without_inject tr s s' :
  Call_inject ∉ tr → threads s = [] → run tr s = Some s' →
  threads s' = [] ∧ heap s' = heap s ∧ self s' = self s.
Proof.
  revert s. induction tr as [|a tr IH]; intros s Hni Hth; simpl.
  - by intros [= <-].
  - apply not_elem_of_cons in Hni as [Ha Hni].
    destruct a as [dt| | |tid]; simpl; try done.
    + destruct (0 <=? dt); [|done]. intros Hrun.
      by apply IH in Hrun.
    + by apply IH.
    + by rewrite Hth.
Qed.

(** C9. As long as [inject()] has not been called on an instance,
    whatever else happens, [get_injections()] refers to an empty list. *)
Theorem get_injections_empty_before_inject k tg d h t0 tr s :
  Call_inject ∉ tr →
  run tr (created k tg d h t0) = Some s →
  deref (LoadInjector.get_injections s) s = [].
Proof.
  intros Hni Hrun.
  apply run_without_inject in Hrun as (_ & Hh & Hs); [|done..].
  unfold deref, LoadInjector.get_injections. rewrite Hh, Hs. simpl.
  by rewrite lookup_insert_eq.
Qed.

Lemma get_injections_empty_before_inject_witness :
  deref (LoadInjector.get_injections
           (final [Tick 3; Call_force_close] ssd_x_5))
    (final [Tick 3; Call_force_close] ssd_x_5) = [].
Proof.
  apply (get_injections_empty_before_inject SSD (VStr "x") (VInt 5) ∅ 0
           [Tick 3; Call_force_close]).
  - intros H. apply list_elem_of_In in H. simpl in H.
    intuition discriminate.
  - vm_compute; reflexivity.
Defined.

(** ** Starting twice *)

Lemma inject_calls_cons a tr :
  inject_calls (a :: tr)
  = ((if decide (a = Call_inject) then 1 else 0) + inject_calls tr)%nat.
Proof.
  unfold inject_calls. rewrite filter_cons.
  by destruct (decide (a = Call_inject)).
Qed.

Lemma step_threads_length a s s' :
  step a s = Some s' →
  length (threads s')
  = (length (threads s) + if decide (a = Call_inject) then 1 else 0)%nat.
Proof.
  destruct (decide (a = Call_inject)) as [->|Hne].
  - intros [= <-]. simpl. by rewrite length_app.
  - destruct a as [dt| | |tid]; simpl; [| done | |].
    + destruct (0 <=? dt); [|done]. intros [= <-]. simpl. lia.
    + intros [= <-]. unfold LoadInjector.force_close. lia.
    + intros (w & w' & s1 & _ & Hb & ->)%step_Run_inv.
      apply inject_body_effect in Hb as (_ & -> & _). simpl.
      rewrite length_insert. lia.
Qed.

Lemma run_threads_length tr s s' :
  run tr s = Some s' →
  length (threads s') = (length (threads s) + inject_calls tr)%nat.
Proof.
  revert s. induction tr as [|a tr IH]; intros s; simpl.
  - intros [= <-]. unfold inject_calls. simpl. lia.
  - destruct (step a s) as [s1|] eqn:E; [|done]. intros Hrun.
    rewrite (IH _ Hrun), (step_threads_length _ _ _ E), inject_calls_cons.
    lia.
Qed.

Lemma alive_count_inject s :
  alive_count (LoadInjector.inject s) = S (alive_count s).
Proof.
  unfold alive_count. simpl. rewrite filter_app, length_app. simpl. lia.
Qed.

(** C3, as the code has it.  [inject()] consults nothing: in every state,
    running or not, it creates and starts one more thread, which is alive
    next to those already alive, and leaves [is_injector_running()] as it
    was; an instance has as many threads as [inject()] was called. *)
Theorem inject_always_starts_a_thread k tg d h t0 tr s :
  run tr (created k tg d h t0) = Some s →
  length (threads s) = inject_calls tr ∧
  ∃ s', step Call_inject s = Some s' ∧
    threads s' = threads s ++ [new_worker] ∧
    inj_thread (self s') = Some (length (threads s)) ∧
    alive_count s' = S (alive_count s) ∧
    LoadInjector.is_injector_running s' = LoadInjector.is_injector_running s.
Proof.
  intros Hrun. split.
  - by rewrite (run_threads_length _ _ _ Hrun).
  - exists (LoadInjector.inject s). split_and!; try done.
    apply alive_count_inject.
Qed.

Lemma inject_always_starts_a_thread_witness :
  length (threads (final started ssd_x_5)) = inject_calls started ∧
  ∃ s', step Call_inject (final started ssd_x_5) = Some s' ∧
    threads s' = threads (final started ssd_x_5) ++ [new_worker] ∧
    inj_thread (self s') = Some (length (threads (final started ssd_x_5))) ∧
    alive_count s' = S (alive_count (final started ssd_x_5)) ∧
    LoadInjector.is_injector_running s'
    = LoadInjector.is_injector_running (final started ssd_x_5).
Proof.
  apply (inject_always_starts_a_thread SSD (VStr "x") (VInt 5) ∅ 0 started).
  vm_compute; reflexivity.
Defined.

(** C3, as stated, fails: [inject()] on a running instance is not a no-op,
    and two threads are alive afterwards. *)
Lemma inject_while_running_is_not_a_no_op :
  ¬ (∀ k tg d h t0 tr s s',
       run tr (created k tg d h t0) = Some s →
       LoadInjector.is_injector_running s = true →
       step Call_inject s = Some s' →
       s' = s ∧ (alive_count s' ≤ 1)%nat).
Proof.
  intros H.
  destruct (H SSD (VStr "x") (VInt 5) ∅ 0 started (final started ssd_x_5)
              (LoadInjector.inject (final started ssd_x_5))) as [_ Hle];
    try (vm_compute; reflexivity).
  vm_compute in Hle. lia.
Qed.

(** Two threads of one instance inside the body at the same time, and the
    overlapping entries they leave. *)
Lemma double_start_overlapping_entries :
  LoadInjector.is_injector_running (final (take 3 double_start) ssd_x_5)
  = true ∧
  (in_body <$> threads (final (take 7 double_start) ssd_x_5)) = [true; true] ∧
  ledger (final double_start ssd_x_5)
  = [ {| i_start := 0; i_end := 6 |}; {| i_start := 1; i_end := 6 |} ] ∧
  overlap {| i_start := 0; i_end := 6 |} {| i_start := 1; i_end := 6 |}.
Proof. split_and!; try (vm_compute; reflexivity). unfold overlap. simpl. lia. Qed.

(** ** The reference returned by [get_injections] *)

Lemma deref_clear r s :
  deref r (with_heap (py_list_clear r (heap s)) s) = [].
Proof.
  unfold deref, py_list_clear. simpl. rewrite lookup_alter_eq.
  by destruct (heap s !! r).
Qed.

(** C4, as the code has it.  [get_injections()] returns the attribute
    [injected_interval] itself.  The list it refers to is the ledger as it
    stands at the call; it remains the ledger afterwards, so later appends
    of the threads show through it; and what the caller does to it is done
    to the ledger: an [append] adds an entry, a [clear] empties it. *)
Theorem get_injections_is_an_alias k tg d h t0 tr s :
  run tr (created k tg d h t0) = Some s →
  let r := LoadInjector.get_injections s in
  r = injected_interval (self s) ∧
  deref r s = ledger s ∧
  (∀ tr' s', run tr' s = Some s' → deref r s' = ledger s') ∧
  (∀ x, ledger (with_heap (py_list_append r x (heap s)) s) = ledger s ++ [x]) ∧
  ledger (with_heap (py_list_clear r (heap s)) s) = [].
Proof.
  intros Hrun r. pose proof (inv_reachable _ _ _ _ _ _ _ Hrun) as [Hh _ _ _].
  split_and!; try done.
  - intros tr' s' Hrun'.
    apply run_same_config in Hrun' as (_ & _ & _ & _ & Hloc).
    unfold ledger. by rewrite Hloc.
  - intros x. unfold ledger. simpl. by apply deref_append.
  - unfold ledger. simpl. apply deref_clear.
Qed.

Lemma get_injections_is_an_alias_witness :
  let s := final one_run ssd_x_5 in
  let r := LoadInjector.get_injections s in
  r = injected_interval (self s) ∧
  deref r s = ledger s ∧
  (∀ tr' s', run tr' s = Some s' → deref r s' = ledger s') ∧
  (∀ x, ledger (with_heap (py_list_append r x (heap s)) s) = ledger s ++ [x]) ∧
  ledger (with_heap (py_list_clear r (heap s)) s) = [].
Proof.
  apply (get_injections_is_an_alias SSD (VStr "x") (VInt 5) ∅ 0 one_run).
  vm_compute; reflexivity.
Defined.

(** C4, as stated, fails: an [append] by the caller on the list returned
    changes the injector's ledger. *)
Lemma get_injections_is_not_a_copy :
  ¬ (∀ k tg d h t0 tr s x,
       run tr (created k tg d h t0) = Some s →
       ledger (with_heap
                 (py_list_append (LoadInjector.get_injections s) x (heap s)) s)
       = ledger s).
Proof.
  intros H.
  specialize (H SSD (VStr "x") (VInt 5) ∅ 0 [] ssd_x_5
                {| i_start := 0; i_end := 0 |} eq_refl).
  vm_compute in H. discriminate H.
Qed.

(** ** The validity flag *)

Lemma inject_body_with_valid b w s :
  SSDLoadInjector.inject_body w (with_valid b s)
  = (λ '(w', s1), (w', with_valid b s1)) <$> SSDLoadInjector.inject_body w s.
Proof.
  unfold SSDLoadInjector.inject_body. destruct (w_pc w); try done.
  simpl. by destruct (py_int_lt _ _) as [[]|].
Qed.

Lemma step_with_valid b a s :
  step a (with_valid b s) = with_valid b <$> step a s.
Proof.
  destruct a as [dt| | |tid]; simpl; try done.
  - by destruct (0 <=? dt).
  - destruct (threads s !! tid) as [w|]; [|done].
    rewrite !inject_body_dispatch, inject_body_with_valid.
    by destruct (SSDLoadInjector.inject_body w s) as [[w' s1]|].
Qed.

Lemma run_with_valid b tr s :
  run tr (with_valid b s) = with_valid b <$> run tr s.
Proof.
  revert s. induction tr as [|a tr IH]; intros s; simpl; [done|].
  rewrite step_with_valid. destruct (step a s) as [s1|]; simpl; [|done].
  apply IH.
Qed.

(** C5, as the code has it.  Every instance the constructors build is valid
    and stays so.  [inject()] does not look at the flag: were it set to [b],
    [inject()] would start a thread all the same, without an exception, and
    the system would run exactly as it does otherwise. *)
Theorem inject_ignores_validity k tg d h t0 tr s :
  run tr (created k tg d h t0) = Some s →
  LoadInjector.is_valid s = true ∧
  ∀ b,
    LoadInjector.is_valid (with_valid b s) = b ∧
    step Call_inject (with_valid b s)
    = Some (with_valid b (LoadInjector.inject s)) ∧
    threads (LoadInjector.inject s) = threads s ++ [new_worker] ∧
    ∀ tr', run tr' (with_valid b s) = with_valid b <$> run tr' s.
Proof.
  intros Hrun. split.
  - apply run_same_config in Hrun as (_ & Hv & _).
    unfold LoadInjector.is_valid. by rewrite Hv.
  - intros b. split_and!; try done. intros tr'. apply run_with_valid.
Qed.

Lemma inject_ignores_validity_witness :
  LoadInjector.is_valid ssd_x_5 = true ∧
  ∀ b,
    LoadInjector.is_valid (with_valid b ssd_x_5) = b ∧
    step Call_inject (with_valid b ssd_x_5)
    = Some (with_valid b (LoadInjector.inject ssd_x_5)) ∧
    threads (LoadInjector.inject ssd_x_5) = threads ssd_x_5 ++ [new_worker] ∧
    ∀ tr', run tr' (with_valid b ssd_x_5) = with_valid b <$> run tr' ssd_x_5.
Proof.
  apply (inject_ignores_validity SSD (VStr "x") (VInt 5) ∅ 0 []).
  reflexivity.
Defined.

(** C5, as stated, fails: on an instance whose flag is [False], [inject()]
    starts a thread, and the body runs and appends to the ledger. *)
Lemma inject_on_invalid_instance_runs_the_body :
  ¬ (∀ s tr s',
       LoadInjector.is_valid s = false →
       run (Call_inject :: tr) s = Some s' →
       threads s' = threads s ∧ ledger s' = ledger s).
Proof.
  intros H.
  destruct (H (with_valid false ssd_x_5) (tail one_run)
              (final one_run (with_valid false ssd_x_5))) as [Hth _];
    try (vm_compute; reflexivity).
  vm_compute in Hth. discriminate Hth.
Qed.

(** ** Never started and completed *)

(** C10, as the code has it.  A new instance is not running.  Once every
    thread of an instance has returned it is not running either, and
    [is_valid()] and [get_name()] answer as on the new instance; but
    [get_injections()] tells the two apart: the list is empty on the new
    instance and not empty once a thread has returned. *)
Theorem never_started_and_completed k tg d h t0 tr s :
  run tr (created k tg d h t0) = Some s →
  Forall (λ w, w_pc w = Finished) (threads s) →
  LoadInjector.is_injector_running (created k tg d h t0) = false ∧
  LoadInjector.is_injector_running s = false ∧
  LoadInjector.is_valid s = LoadInjector.is_valid (created k tg d h t0) ∧
  get_name s = get_name (created k tg d h t0) ∧
  deref (LoadInjector.get_injections (created k tg d h t0))
    (created k tg d h t0) = [] ∧
  (threads s ≠ [] → deref (LoadInjector.get_injections s) s ≠ []).
Proof.
  intros Hrun Hfin.
  pose proof (run_same_config _ _ _ Hrun) as Hcfg.
  pose proof (inv_reachable _ _ _ _ _ _ _ Hrun) as [_ Hw _ Hf].
  split_and!.
  - done.
  - unfold LoadInjector.is_injector_running.
    destruct (completed_flag (self s)) eqn:Hc; [done|].
    destruct (Hf eq_refl) as (i & w & Hi & Hu).
    rewrite Forall_lookup in Hfin. specialize (Hfin i w Hi).
    unfold unfinished in Hu. by rewrite Hfin in Hu.
  - destruct Hcfg as (_ & Hv & _). unfold LoadInjector.is_valid. by rewrite Hv.
  - by apply get_name_config.
  - unfold deref. simpl. by rewrite lookup_insert_eq.
  - intros Hne. destruct (threads s) as [|w ws] eqn:Hth; [done|].
    apply Forall_cons in Hfin as [Hpc _]. apply Forall_cons in Hw as [Hok _].
    unfold worker_ok in Hok. rewrite Hpc in Hok.
    destruct Hok as (e & c & p & rest & _ & _ & _ & _ & Hin & _).
    unfold LoadInjector.get_injections. fold (ledger s).
    intros Hnil. rewrite Hnil in Hin. by apply elem_of_nil in Hin.
Qed.

Lemma never_started_and_completed_witness :
  LoadInjector.is_injector_running ssd_x_5 = false ∧
  LoadInjector.is_injector_running (final one_run ssd_x_5) = false ∧
  LoadInjector.is_valid (final one_run ssd_x_5) = LoadInjector.is_valid ssd_x_5 ∧
  get_name (final one_run ssd_x_5) = get_name ssd_x_5 ∧
  deref (LoadInjector.get_injections ssd_x_5) ssd_x_5 = [] ∧
  (threads (final one_run ssd_x_5) ≠ [] →
   deref (LoadInjector.get_injections (final one_run ssd_x_5))
     (final one_run ssd_x_5) ≠ []).
Proof.
  apply (never_started_and_completed SSD (VStr "x") (VInt 5) ∅ 0 one_run).
  - vm_compute; reflexivity.
  - repeat constructor.
Defined.

(** C10, as stated, fails: the query methods do not all answer alike on a
    new instance and on one whose run has completed. *)
Lemma completed_differs_from_never_started :
  ¬ (∀ k tg d h t0 tr s w,
       run tr (created k tg d h t0) = Some s →
       threads s = [w] → w_pc w = Finished →
       observe s = observe (created k tg d h t0)).
Proof.
  intros H.
  specialize (H SSD (VStr "x") (VInt 5) ∅ 0 one_run (final one_run ssd_x_5)
                {| w_pc := Finished; w_start_time := 0;
                   w_reads := [11; 8; 4; 0; 0] |}).
  vm_compute in H. specialize (H eq_refl eq_refl eq_refl). discriminate H.
Qed.

(** * Further properties of [LoadInjector.py] *)

(** ** [force_close] *)


(** ** What [is_injector_running] tells *)

Lemma flag_tracks_single_thread w s w' s1 :
  SSDLoadInjector.inject_body w s = Some (w', s1) →
  completed_flag (self s) = negb (unfinished w) →
  completed_flag (self s1) = negb (unfinished w').
Proof.
  unfold SSDLoadInjector.inject_body, unfinished.
  destruct (w_pc w); try done; try by intros [= <- <-].
  destruct (py_int_lt _ _) as [[]|]; by intros [= <- <-].
Qed.

Lemma single_thread_flag k tg d h t0 tr s :
  run tr (created k tg d h t0) = Some s →
  (length (threads s) ≤ 1)%nat →
  ∀ w, w ∈ threads s → completed_flag (self s) = negb (unfinished w).
Proof.
  intros Hrun.
  cut (inv s ∧ ((length (threads s) ≤ 1)%nat →
                ∀ w, w ∈ threads s →
                     completed_flag (self s) = negb (unfinished w))).
  { by intros [_ ?]. }
  eapply (run_invariant
            (λ s, inv s ∧ ((length (threads s) ≤ 1)%nat →
                           ∀ w, w ∈ threads s →
                             completed_flag (self s) = negb (unfinished w))));
    [| |exact Hrun].
  - intros a s0 s1 [Hinv HP] Hstep. split; [by eapply inv_step|].
    destruct a as [dt| | |tid]; simpl in Hstep.
    + destruct (0 <=? dt); [|done]. by injection Hstep as <-.
    + injection Hstep as <-. simpl. rewrite length_app. simpl.
      intros Hlen w Hw. destruct (threads s0) as [|w0 ws] eqn:Hth;
        [|simpl in Hlen; lia].
      apply list_elem_of_singleton in Hw as ->.
      destruct (completed_flag (self s0)) eqn:Hc; [done|].
      destruct (inv_flag _ Hinv Hc) as (i & w & Hi & _).
      by rewrite Hth in Hi.
    + by injection Hstep as <-.
    + apply step_Run_inv in Hstep as (w & w' & s2 & Hw & Hb & ->).
      pose proof (inject_body_effect _ _ _ _ Hb) as (_ & Hth & _).
      simpl. rewrite Hth, length_insert. intros Hlen w1 Hw1.
      destruct (threads s0) as [|w0 [|? ?]] eqn:Hl; [done| |simpl in Hlen; lia].
      destruct tid as [|tid]; [|done]. simpl in Hw. injection Hw as ->.
      simpl in Hw1. apply list_elem_of_singleton in Hw1 as ->.
      eapply flag_tracks_single_thread; [exact Hb|].
      apply HP; [simpl; lia|]. by apply list_elem_of_singleton.
  - split; [apply inv_created|]. simpl. intros _ w Hw.
    by apply elem_of_nil in Hw.
Qed.

(** X2. While [is_injector_running()] answers [True], some thread of the
    instance has executed its first statement and has not returned.  When
    [inject()] was called at most once the answer is exact: it is [True] if
    and only if the thread is past its first statement and has not returned
    (a thread ended by an exception never returns). *)
Theorem is_injector_running_meaning k tg d h t0 tr s :
  run tr (created k tg d h t0) = Some s →
  (LoadInjector.is_injector_running s = true →
   ∃ i w, threads s !! i = Some w ∧ unfinished w = true) ∧
  ((inject_calls tr ≤ 1)%nat →
   ∀ w, w ∈ threads s → LoadInjector.is_injector_running s = unfinished w).
Proof.
  intros Hrun. split.
  - intros Hr. apply inv_reachable in Hrun.
    apply (inv_flag _ Hrun). unfold LoadInjector.is_injector_running in Hr.
    by destruct (completed_flag (self s)).
  - intros Hc w Hw. unfold LoadInjector.is_injector_running.
    rewrite (single_thread_flag _ _ _ _ _ _ _ Hrun) with (w := w);
      [by rewrite negb_involutive| |done].
    rewrite (run_threads_length _ _ _ Hrun). simpl. lia.
Qed.

Lemma is_injector_running_meaning_witness :
  (LoadInjector.is_injector_running (final started ssd_x_5) = true →
   ∃ i w, threads (final started ssd_x_5) !! i = Some w ∧
          unfinished w = true) ∧
  ((inject_calls started ≤ 1)%nat →
   ∀ w, w ∈ threads (final started ssd_x_5) →
        LoadInjector.is_injector_running (final started ssd_x_5)
        = unfinished w).
Proof.
  apply (is_injector_running_meaning SSD (VStr "x") (VInt 5) ∅ 0 started).
  vm_compute; reflexivity.
Defined.

(** ** Exceptions in the body *)

Lemma thread_runs_to_completion_witness :
  ∃ s' w', run (drive 5 0 (final started ssd_x_5)) (final started ssd_x_5)
           = Some s' ∧
    threads s' !! 0%nat = Some w' ∧ w_pc w' = Finished.
Proof.
  apply (thread_runs_to_completion SSD (VStr "x") (VInt 5) ∅ 0 started
           (final started ssd_x_5) 0
           {| w_pc := L_read_start; w_start_time := 0; w_reads := [] |} 5);
    vm_compute; reflexivity.
Defined.

(** X4. A thread of an instance whose duration is a number never ends by
    an exception: a thread that did proves the duration to be neither an
    [int] nor a [bool]. *)
Theorem exception_only_for_non_numeric_duration k tg d h t0 tr s w e :
  run tr (created k tg d h t0) = Some s →
  w ∈ threads s →
  w_pc w = Crashed e →
  as_int d = None.
Proof.
  intros Hrun Hw Hpc.
  pose proof (run_same_config _ _ _ Hrun) as (_ & _ & _ & Hdur & _).
  pose proof (inv_reachable _ _ _ _ _ _ _ Hrun) as [_ Hok _ _].
  rewrite Forall_forall in Hok. specialize (Hok w Hw).
  unfold worker_ok in Hok. by rewrite Hpc, Hdur in Hok.
Qed.

Lemma exception_only_for_non_numeric_duration_witness :
  as_int (VStr "1000") = None.
Proof.
  apply (exception_only_for_non_numeric_duration SSD (VStr "x") (VStr "1000")
           ∅ 0 [Call_inject; Run 0; Run 0; Run 0]
           (final [Call_inject; Run 0; Run 0; Run 0]
              (created SSD (VStr "x") (VStr "1000") ∅ 0))
           {| w_pc := Crashed TypeError; w_start_time := 0;
              w_reads := [0; 0] |} TypeError).
  - vm_compute; reflexivity.
  - vm_compute. apply list_elem_of_singleton. reflexivity.
  - reflexivity.
Defined.

Lemma not_past_loop_step w s w' s1 :
  as_int (duration_ms (self s)) = None →
  not_past_loop w = true →
  SSDLoadInjector.inject_body w s = Some (w', s1) →
  not_past_loop w' = true ∧ heap s1 = heap s ∧
  (completed_flag (self s) = false → completed_flag (self s1) = false).
Proof.
  intros Hd. unfold SSDLoadInjector.inject_body, not_past_loop, py_int_lt.
  rewrite Hd. destruct (w_pc w); try done; by intros _ [= <- <-].
Qed.

Lemma non_numeric_step a s s' :
  as_int (duration_ms (self s)) = None →
  Forall (λ w, not_past_loop w = true) (threads s) →
  step a s = Some s' →
  Forall (λ w, not_past_loop w = true) (threads s') ∧
  heap s' = heap s ∧
  (completed_flag (self s) = false → completed_flag (self s') = false).
Proof.
  intros Hd Hall. destruct a as [dt| | |tid]; simpl.
  - destruct (0 <=? dt); [|done]. by intros [= <-].
  - intros [= <-]. simpl. split; [|done].
    apply Forall_app. split; [done|]. by repeat constructor.
  - by intros [= <-].
  - intros (w & w' & s1 & Hw & Hb & ->)%step_Run_inv.
    pose proof (inject_body_effect _ _ _ _ Hb) as (_ & Hth & _).
    apply not_past_loop_step in Hb as (Hw' & Hh & Hc); [|done|].
    + simpl. rewrite Hth. split; [|done]. by apply Forall_insert.
    + by eapply Forall_lookup_1 in Hall.
Qed.

Lemma non_numeric_run tr s s' :
  as_int (duration_ms (self s)) = None →
  Forall (λ w, not_past_loop w = true) (threads s) →
  run tr s = Some s' →
  Forall (λ w, not_past_loop w = true) (threads s') ∧
  heap s' = heap s ∧
  (completed_flag (self s) = false → completed_flag (self s') = false).
Proof.
  revert s. induction tr as [|a tr IH]; intros s Hd Hall; simpl.
  - by intros [= <-].
  - destruct (step a s) as [s1|] eqn:E; [|done]. intros Hrun.
    pose proof (step_same_config _ _ _ E) as (_ & _ & _ & Hdur & _).
    destruct (non_numeric_step _ _ _ Hd Hall E) as (Hall1 & Hh1 & Hc1).
    destruct (IH s1) as (Hall2 & Hh2 & Hc2); [congruence|done|done|].
    split_and!; [done|congruence|auto].
Qed.

(** X5. With a duration that is not a number ([None] or a [str], as a job
    with ["duration_ms": "1000"] gives), the comparison of the loop
    condition raises in every thread: no thread gets past the loop, nothing
    is ever appended to the ledger, and once [is_injector_running()] answers
    [True] it does so for ever. *)
Theorem non_numeric_duration_never_completes k tg d h t0 tr s :
  run tr (created k tg d h t0) = Some s →
  as_int d = None →
  ledger s = [] ∧
  Forall (λ w, not_past_loop w = true) (threads s) ∧
  (∀ tr' s', run tr' s = Some s' →
     LoadInjector.is_injector_running s = true →
     LoadInjector.is_injector_running s' = true).
Proof.
  intros Hrun Hd.
  pose proof (run_same_config _ _ _ Hrun) as (_ & _ & _ & Hdur & Hloc).
  simpl in Hdur.
  destruct (non_numeric_run tr (created k tg d h t0) s) as (Hall & Hh & _);
    [done|by constructor|done|].
  split_and!; [|done|].
  - unfold ledger, deref. rewrite Hh, Hloc. simpl. by rewrite lookup_insert_eq.
  - intros tr' s' Hrun'. unfold LoadInjector.is_injector_running.
    destruct (non_numeric_run tr' s s') as (_ & _ & Hc); [congruence|done|done|].
    destruct (completed_flag (self s)); [done|]. by rewrite Hc.
Qed.

Lemma non_numeric_duration_never_completes_witness :
  let s := final [Call_inject; Run 0; Run 0; Run 0]
             (created SSD (VStr "x") (VStr "1000") ∅ 0) in
  ledger s = [] ∧
  Forall (λ w, not_past_loop w = true) (threads s) ∧
  (∀ tr' s', run tr' s = Some s' →
     LoadInjector.is_injector_running s = true →
     LoadInjector.is_injector_running s' = true).
Proof.
  apply (non_numeric_duration_never_completes SSD (VStr "x") (VStr "1000") ∅ 0
           [Call_inject; Run 0; Run 0; Run 0]); vm_compute; reflexivity.
Defined.

(** X6. [get_name()] answers the same in every state of an instance, and it
    raises [TypeError] exactly when the tag is not a string (as for a job
    with ["tag": 7], which the factory accepts). *)
Theorem get_name_raises_iff_tag_not_str k tg d h t0 tr s :
  run tr (created k tg d h t0) = Some s →
  get_name s = get_name (created k tg d h t0) ∧
  (get_name s = Raise TypeError ↔ ∀ t, tg ≠ VStr t).
Proof.
  intros Hrun.
  pose proof (get_name_config _ _ (run_same_config _ _ _ Hrun)) as Hn.
  split; [done|]. rewrite Hn.
  unfold get_name, SSDLoadInjector.get_name, RAMLoadInjector.get_name.
  destruct k, tg as [| | |t]; simpl; split; try done;
    try (intros H; by destruct (H t)).
Qed.

Lemma get_name_raises_iff_tag_not_str_witness :
  let s := final one_run (created SSD (VInt 7) (VInt 5) ∅ 0) in
  get_name s = get_name (created SSD (VInt 7) (VInt 5) ∅ 0) ∧
  (get_name s = Raise TypeError ↔ ∀ t, VInt 7 ≠ VStr t).
Proof.
  apply (get_name_raises_iff_tag_not_str SSD (VInt 7) (VInt 5) ∅ 0 one_run).
  vm_compute; reflexivity.
Defined.

(** ** Instances do not share their lists *)

Lemma fromJSON_Some job h o h' :
  fromJSON job h = (Some o, h') →
  injected_interval o = fresh (dom h) ∧ h' = <[fresh (dom h) := []]> h.
Proof.
  unfold fromJSON. destruct job as [j|]; [|done].
  destruct (j !! "type") as [t|]; [|done].
  destruct (py_in t _); [by intros [= <- <-]|].
  destruct (py_in t _); [by intros [= <- <-]|done].
Qed.

(** X7. Two instances built one after the other by the factory own
    different list objects, and no run of either instance touches the list
    of the other: each [__init__] allocates a list of its own. *)
Theorem instances_do_not_share_ledgers job1 job2 h o1 h1 o2 h2 t0 tr s :
  fromJSON job1 h = (Some o1, h1) →
  fromJSON job2 h1 = (Some o2, h2) →
  run tr (system_of (o2, h2) t0) = Some s ∨
  run tr (system_of (o1, h2) t0) = Some s →
  injected_interval o1 ≠ injected_interval o2 ∧
  (run tr (system_of (o2, h2) t0) = Some s →
   deref (injected_interval o1) s = []) ∧
  (run tr (system_of (o1, h2) t0) = Some s →
   deref (injected_interval o2) s = []).
Proof.
  intros [Hl1 ->]%fromJSON_Some [Hl2 ->]%fromJSON_Some _.
  assert (injected_interval o1 ≠ injected_interval o2) as Hne.
  { rewrite Hl1, Hl2. intros Heq.
    apply (is_fresh (dom (<[fresh (dom h) := []]> h))).
    rewrite <- Heq. apply elem_of_dom. rewrite lookup_insert_eq. eauto. }
  split; [done|]. split; intros Hrun; unfold deref.
  - rewrite (run_frame _ _ _ _ Hrun) by done. simpl.
    rewrite lookup_insert_ne by congruence.
    by rewrite Hl1, lookup_insert_eq.
  - rewrite (run_frame _ _ _ _ Hrun) by (simpl; congruence). simpl.
    by rewrite Hl2, lookup_insert_eq.
Qed.

Lemma instances_do_not_share_ledgers_witness :
  let oh1 := RAMLoadInjector.fromJSON job_memory ∅ in
  let oh2 := SSDLoadInjector.fromJSON job_memory oh1.2 in
  let s := final one_run (system_of oh2 0) in
  injected_interval oh1.1 ≠ injected_interval oh2.1 ∧
  (run one_run (system_of (oh2.1, oh2.2) 0) = Some s →
   deref (injected_interval oh1.1) s = []) ∧
  (run one_run (system_of (oh1.1, oh2.2) 0) = Some s →
   deref (injected_interval oh2.1) s = []).
Proof.
  intros oh1 oh2 s.
  apply (instances_do_not_share_ledgers
           (Some job_memory) (Some (<["type" := VStr "SSD"]> job_memory)) ∅
           oh1.1 oh1.2 oh2.1 oh2.2 0 one_run s);
    [vm_compute; reflexivity | vm_compute; reflexivity | left].
  vm_compute; reflexivity.
Defined.

(** ** More on the ledger *)

Lemma inject_body_ledger_cases w s w' s1 :
  is_Some (heap s !! injected_interval (self s)) →
  SSDLoadInjector.inject_body w s = Some (w', s1) →
  (w_pc w ≠ L_append ∧ ledger s1 = ledger s ∧
   appended w' = appended w) ∨
  (w_pc w = L_append ∧ appended w = false ∧ appended w' = true ∧
   ledger s1
   = ledger s ++ [ {| i_start := w_start_time w; i_end := now s |} ]).
Proof.
  intros Hh. unfold SSDLoadInjector.inject_body, appended, current_ms.
  destruct (w_pc w) eqn:Hpc; try done;
    try (intros [= <- <-]; left; by split_and!).
  - destruct (py_int_lt _ _) as [[]|]; intros [= <- <-]; left; by split_and!.
  - intros [= <- <-]. right. split_and!; try done.
    unfold ledger. simpl. by apply deref_append.
Qed.

Lemma filter_insert_length {A} (P : A → Prop) `{!∀ x, Decision (P x)}
    (l : list A) (i : nat) (x y : A) :
  l !! i = Some x →
  (length (filter P (<[i := y]> l)) + (if decide (P x) then 1 else 0)
   = length (filter P l) + (if decide (P y) then 1 else 0))%nat.
Proof.
  revert i. induction l as [|z l IH]; intros i Hi; [done|].
  destruct i as [|i]; simpl in *.
  - injection Hi as ->. rewrite !filter_cons.
    destruct (decide (P x)), (decide (P y)); simpl; lia.
  - specialize (IH i Hi). rewrite !filter_cons.
    destruct (decide (P z)); simpl; lia.
Qed.

(** X8. Every thread appends exactly one entry: the ledger has as many
    entries as there are threads past their [append], hence never more than
    [inject()] was called. *)
Theorem one_entry_per_completed_thread k tg d h t0 tr s :
  run tr (created k tg d h t0) = Some s →
  length (ledger s) = length (filter (λ w, appended w = true) (threads s)) ∧
  (length (ledger s) ≤ inject_calls tr)%nat.
Proof.
  intros Hrun.
  assert (length (ledger s)
          = length (filter (λ w, appended w = true) (threads s))) as Hlen.
  { cut (inv s ∧ length (ledger s)
                 = length (filter (λ w, appended w = true) (threads s))).
    { by intros [_ ?]. }
    eapply (run_invariant
              (λ s, inv s ∧ length (ledger s)
                    = length (filter (λ w, appended w = true) (threads s))));
      [| |exact Hrun].
    - intros a s0 s1 [Hinv HP] Hstep. split; [by eapply inv_step|].
      destruct a as [dt| | |tid]; simpl in Hstep.
      + destruct (0 <=? dt); [|done]. by injection Hstep as <-.
      + injection Hstep as <-. simpl. rewrite filter_app, length_app.
        change (filter (λ w, appended w = true) [new_worker]) with (@nil worker).
        change (ledger (LoadInjector.inject s0)) with (ledger s0). simpl. lia.
      + by injection Hstep as <-.
      + apply step_Run_inv in Hstep as (w & w' & s2 & Hw & Hb & ->).
        pose proof (inject_body_effect _ _ _ _ Hb) as (_ & Hth & _).
        pose proof (filter_insert_length (λ w, appended w = true)
                      (threads s0) tid w w' Hw) as Hf.
        cbv beta in Hf.
        change (length (ledger s2)
                = length (filter (λ w, appended w = true)
                            (<[tid := w']> (threads s2)))).
        rewrite Hth.
        destruct (inject_body_ledger_cases _ _ _ _ (inv_heap _ Hinv) Hb)
          as [(_ & -> & Hap)|(_ & Hap & Hap' & ->)].
        * rewrite Hap in Hf.
          destruct (decide (appended w = true)); lia.
        * rewrite Hap, Hap' in Hf. rewrite length_app. simpl in *. lia.
    - split; [apply inv_created|]. unfold ledger, deref. simpl.
      by rewrite lookup_insert_eq. }
  split; [done|]. rewrite Hlen.
  etransitivity; [apply length_filter|].
  rewrite (run_threads_length _ _ _ Hrun). simpl. lia.
Qed.

Lemma one_entry_per_completed_thread_witness :
  length (ledger (final double_start ssd_x_5))
  = length (filter (λ w, appended w = true)
              (threads (final double_start ssd_x_5))) ∧
  (length (ledger (final double_start ssd_x_5))
   ≤ inject_calls double_start)%nat.
Proof.
  apply (one_entry_per_completed_thread SSD (VStr "x") (VInt 5) ∅ 0
           double_start).
  vm_compute; reflexivity.
Defined.






(** ** Injections one after the other *)






(** * Properties of the warning level of [anomaly_detector.py] *)

Import SystemMonitorInjector.

Lemma loop_body_fields a st m :
  warning_threshold (loop_body a st m) = warning_threshold m ∧
  warning_level (loop_body a st m) = warning_level (update a m) ∧
  to_remove (loop_body a st m) = to_remove (update a m) ∧
  closed (loop_body a st m) = closed m.
Proof.
  unfold loop_body, _check_and_print_warning, _log_warning.
  by destruct (_ <? _).
Qed.

Lemma monitor_and_detect_app l obs m :
  monitor_and_detect (verdicts l ++ obs) m
  = monitor_and_detect obs (monitor_and_detect (verdicts l) m).
Proof.
  revert m. induction l as [|[a st] l IH]; intros m; [done|]. simpl. apply IH.
Qed.

Lemma verdicts_app l1 l2 : verdicts (l1 ++ l2) = verdicts l1 ++ verdicts l2.
Proof. unfold verdicts. apply fmap_app. Qed.

Lemma counters_ok_loop_body a st m :
  counters_ok m → counters_ok (loop_body a st m).
Proof.
  intros (Hl & [k Hk] & H0). unfold counters_ok.
  destruct (loop_body_fields a st m) as (_ & -> & -> & _).
  unfold update. simpl. destruct a.
  - split_and!; [lia|by exists 0%nat|lia].
  - destruct (0 <? Z.max (warning_level m - to_remove m) 0) eqn:E.
    + apply Z.ltb_lt in E. split_and!; [lia| |lia].
      exists (S k). rewrite Hk, Nat2Z.inj_succ, Z.pow_succ_r; lia.
    + split_and!; [lia|by exists 0%nat|done].
Qed.

Lemma counters_ok_run obs m :
  counters_ok m → counters_ok (monitor_and_detect obs m).
Proof.
  revert m. induction obs as [|[a st|tb] obs IH]; intros m Hm; simpl.
  - done.
  - by apply IH, counters_ok_loop_body.
  - exact Hm.
Qed.

Lemma threshold_run obs m :
  warning_threshold (monitor_and_detect obs m) = warning_threshold m.
Proof.
  revert m. induction obs as [|[a st|tb] obs IH]; intros m; [done| |done].
  change (warning_threshold (monitor_and_detect obs (loop_body a st m))
          = warning_threshold m).
  rewrite IH. apply loop_body_fields.
Qed.

(** X12. Whatever is observed, the warning level is never negative, the
    amount taken off at the next normal reading is a power of two, and it
    is 1 whenever the level is 0; the threshold is never changed. *)
Theorem warning_level_counters th obs :
  let m := monitor_and_detect obs (__init__ th) in
  0 ≤ warning_level m ∧
  (∃ k : nat, to_remove m = 2 ^ Z.of_nat k) ∧
  (warning_level m = 0 → to_remove m = 1) ∧
  warning_threshold m = th.
Proof.
  simpl. destruct (counters_ok_run obs (__init__ th)) as (? & ? & ?).
  { split_and!; [done|by exists 0%nat|done]. }
  split_and!; try done. apply threshold_run.
Qed.

Lemma quiet_decay stamps m (j : nat) :
  0 ≤ warning_level m →
  to_remove m = 2 ^ Z.of_nat j →
  (warning_level m = 0 → j = 0%nat) →
  warning_level (monitor_and_detect (verdicts (pair false <$> stamps)) m)
  = Z.max (warning_level m
           - (2 ^ Z.of_nat (j + length stamps) - 2 ^ Z.of_nat j)) 0 ∧
  to_remove (monitor_and_detect (verdicts (pair false <$> stamps)) m)
  = (if 0 <? warning_level
               (monitor_and_detect (verdicts (pair false <$> stamps)) m)
     then 2 ^ Z.of_nat (j + length stamps) else 1).
Proof.
  revert m j. induction stamps as [|st stamps IH]; intros m j Hl Hr H0.
  - cbn [fmap list_fmap verdicts monitor_and_detect length].
    rewrite Nat.add_0_r, Hr. split; [lia|].
    destruct (0 <? warning_level m) eqn:E; [done|].
    apply Z.ltb_ge in E. rewrite H0 by lia. done.
  - change (monitor_and_detect (verdicts (pair false <$> st :: stamps)) m)
      with (monitor_and_detect (verdicts (pair false <$> stamps))
              (loop_body false st m)).
    change (length (st :: stamps)) with (S (length stamps)).
    assert (0 < 2 ^ Z.of_nat j) as Hpos by (apply Z.pow_pos_nonneg; lia).
    replace (j + S (length stamps))%nat with (S j + length stamps)%nat by lia.
    assert (2 ^ Z.of_nat (S j) = 2 * 2 ^ Z.of_nat j) as Hs
      by (rewrite Nat2Z.inj_succ, Z.pow_succ_r; lia).
    assert (2 ^ Z.of_nat (S j) ≤ 2 ^ Z.of_nat (S j + length stamps)) as Hmono
      by (apply Z.pow_le_mono_r; lia).
    assert (0 < 2 ^ Z.of_nat (0 + length stamps)) as H1
      by (apply Z.pow_pos_nonneg; lia).
    destruct (loop_body_fields false st m) as (_ & Hlv & Hrm & _).
    unfold update in Hlv, Hrm. simpl in Hlv, Hrm.
    destruct (0 <? Z.max (warning_level m - to_remove m) 0) eqn:E.
    + apply Z.ltb_lt in E.
      destruct (IH (loop_body false st m) (S j)) as [IH1 IH2];
        [lia|lia|lia|].
      rewrite IH2, IH1, Hlv. split; [lia|].
      replace (Z.max (Z.max (warning_level m - to_remove m) 0
                      - (2 ^ Z.of_nat (S j + length stamps) - 2 ^ Z.of_nat (S j))) 0)
        with (Z.max (warning_level m
                     - (2 ^ Z.of_nat (S j + length stamps) - 2 ^ Z.of_nat j)) 0)
        by lia.
      done.
    + apply Z.ltb_ge in E.
      destruct (IH (loop_body false st m) 0%nat) as [IH1 IH2];
        [lia|by rewrite Hrm|done|].
      rewrite IH2, IH1, Hlv.
      assert (Z.max (Z.max (warning_level m - to_remove m) 0
                     - (2 ^ Z.of_nat (0 + length stamps) - 2 ^ Z.of_nat 0)) 0
              = 0)
        as Hz by (change (2 ^ Z.of_nat 0) with 1; lia).
      rewrite Hz. split; [lia|done].
Qed.

(** X13. After an anomaly, whatever came before it, [k] normal readings in
    a row take [1 + 2 + ... + 2^(k-1)] off the warning level, stopping at 0:
    the level is [max (level - (2^k - 1), 0)], the next normal reading would
    take off [2^k] (1 once the level is 0), and the level is back at 0 as
    soon as [2^k] exceeds it. *)
Theorem warning_level_decay th hist st stamps :
  let m := monitor_and_detect (verdicts (hist ++ [(true, st)])) (__init__ th) in
  let m' :=
    monitor_and_detect
      (verdicts (hist ++ [(true, st)] ++ (pair false <$> stamps)))
      (__init__ th) in
  let k := Z.of_nat (length stamps) in
  warning_level m' = Z.max (warning_level m - (2 ^ k - 1)) 0 ∧
  to_remove m' = (if 0 <? warning_level m' then 2 ^ k else 1) ∧
  (warning_level m < 2 ^ k → warning_level m' = 0).
Proof.
  intros m m' k.
  assert (m' = monitor_and_detect (verdicts (pair false <$> stamps)) m) as ->.
  { unfold m', m. by rewrite app_assoc, verdicts_app, monitor_and_detect_app. }
  assert (to_remove m = 1 ∧ 0 ≤ warning_level m) as [Hr Hl].
  { unfold m. rewrite verdicts_app, monitor_and_detect_app.
    set (m0 := monitor_and_detect (verdicts hist) (__init__ th)).
    assert (counters_ok m0) as (Hl0 & _).
    { apply counters_ok_run. split_and!; [done|by exists 0%nat|done]. }
    change (monitor_and_detect (verdicts [(true, st)]) m0)
      with (loop_body true st m0).
    destruct (loop_body_fields true st m0) as (_ & -> & -> & _).
    simpl. lia. }
  destruct (quiet_decay stamps m 0) as [H1 H2]; [done|done|done|].
  change (2 ^ Z.of_nat 0) with 1 in H1.
  change (Z.of_nat (0 + length stamps)) with k in H1, H2.
  split_and!; [done|done|]. rewrite H1. lia.
Qed.

(** X14. [n] anomalies in a row add [n] to the warning level, whatever it
    was, and reset the amount to take off to 1; each of them whose level
    exceeds the threshold writes one warning. *)
Theorem anomaly_streak th hist stamps :
  let m := monitor_and_detect (verdicts hist) (__init__ th) in
  let m' :=
    monitor_and_detect (verdicts (hist ++ (pair true <$> stamps)))
      (__init__ th) in
  let n := Z.of_nat (length stamps) in
  warning_level m' = warning_level m + n ∧
  (stamps ≠ [] → to_remove m' = 1) ∧
  length (warning_log m')
  = (length (warning_log m)
     + Z.to_nat (Z.min n (warning_level m + n - th)))%nat.
Proof.
  intros m m' n.
  assert (m' = monitor_and_detect (verdicts (pair true <$> stamps)) m) as ->.
  { unfold m', m. by rewrite verdicts_app, monitor_and_detect_app. }
  assert (warning_threshold m = th) as Hth by apply threshold_run.
  clearbody m. subst n. revert m Hth.
  induction stamps as [|st stamps IH]; intros m Hth.
  - cbn [fmap list_fmap verdicts monitor_and_detect length].
    split_and!; [lia|done|]. replace (Z.to_nat _) with 0%nat by lia. lia.
  - change (monitor_and_detect (verdicts (pair true <$> st :: stamps)) m)
      with (monitor_and_detect (verdicts (pair true <$> stamps))
              (loop_body true st m)).
    change (length (st :: stamps)) with (S (length stamps)).
    destruct (loop_body_fields true st m) as (Ht & Hlv & Hrm & _).
    unfold update in Hlv, Hrm. simpl in Hlv, Hrm.
    destruct (IH (loop_body true st m)) as (IH1 & IH2 & IH3); [congruence|].
    rewrite IH1, IH3, Hlv. split_and!; [lia| |].
    + intros _. destruct stamps as [|st' stamps']; [exact Hrm|by apply IH2].
    + assert (length (warning_log (loop_body true st m))
              = (length (warning_log m)
                 + if (th <? warning_level m + 1)%Z then 1 else 0)%nat) as ->.
      { unfold loop_body, _check_and_print_warning, _log_warning, update.
        simpl. rewrite Hth. destruct (th <? warning_level m + 1); simpl.
        - rewrite length_app. simpl. lia.
        - lia. }
      destruct (th <? warning_level m + 1) eqn:E;
        [apply Z.ltb_lt in E|apply Z.ltb_ge in E]; lia.
Qed.

Lemma anomalies_cons o obs :
  anomalies (o :: obs) = (if is_alarm o then 1 else 0) + anomalies obs.
Proof.
  unfold anomalies. rewrite filter_cons.
  destruct (is_alarm o); simpl length; lia.
Qed.

Lemma anomalies_nonneg obs : 0 ≤ anomalies obs.
Proof. unfold anomalies. lia. Qed.

Lemma warnings_bounded obs m c :
  0 ≤ warning_level m → 0 ≤ to_remove m →
  warning_level m ≤ c →
  (warning_log m ≠ [] → warning_threshold m < c) →
  warning_level (monitor_and_detect obs m) ≤ c + anomalies obs ∧
  (warning_log (monitor_and_detect obs m) ≠ [] →
   warning_threshold m < c + anomalies obs).
Proof.
  revert m c. induction obs as [|[a st|tb] obs IH]; intros m c Hl Hr Hc Hlog.
  - unfold anomalies. simpl. split; [lia|]. intros H. specialize (Hlog H). lia.
  - change (monitor_and_detect (Verdict a st :: obs) m)
      with (monitor_and_detect obs (loop_body a st m)).
    rewrite anomalies_cons.
    destruct (loop_body_fields a st m) as (Ht & Hlv & Hrm & _).
    rewrite <- Ht.
    replace (c + ((if is_alarm (Verdict a st) then 1 else 0) + anomalies obs))
      with ((c + if a then 1 else 0) + anomalies obs) by (destruct a; simpl; lia).
    assert (warning_level (update a m) ≤ c + (if a then 1 else 0) ∧
            0 ≤ warning_level (update a m) ∧ 0 ≤ to_remove (update a m))
      as (Hc' & Hl' & Hr').
    { unfold update. simpl. destruct a; [lia|].
      destruct (0 <? _); lia. }
    apply IH; [lia|lia|lia|].
    unfold loop_body, _check_and_print_warning, _log_warning.
    destruct (warning_threshold (update a m) <? warning_level (update a m))
      eqn:E; simpl.
    + intros _. apply Z.ltb_lt in E. unfold update in E |- *. simpl in *. lia.
    + intros H. specialize (Hlog H). destruct a; lia.
  - simpl. pose proof (anomalies_nonneg (Failure tb :: obs)).
    split; [lia|]. intros H'. specialize (Hlog H'). lia.
Qed.

(** X15. The warning level never exceeds the number of anomalies observed,
    and a warning has been written only if more anomalies than the
    threshold were observed. *)
Theorem warning_needs_anomalies th obs :
  let m := monitor_and_detect obs (__init__ th) in
  warning_level m ≤ anomalies obs ∧
  (warning_log m ≠ [] → th < anomalies obs).
Proof.
  simpl. destruct (warnings_bounded obs (__init__ th) 0) as [H1 H2];
    simpl; try done.
Qed.

Lemma outputs_step a st m :
  (warning_threshold (update a m) < warning_level (update a m) ∧
   warning_log (loop_body a st m)
   = warning_log m ++ [warning_line st (warning_level (update a m))] ∧
   stdout (loop_body a st m) = stdout m) ∨
  (warning_log (loop_body a st m) = warning_log m ∧
   stdout (loop_body a st m)
   = stdout m ++ [py_str_mul " " (S (last_printed_length m)) +:+ CR]).
Proof.
  unfold loop_body, _check_and_print_warning, _log_warning.
  destruct (warning_threshold (update a m) <? warning_level (update a m))
    eqn:E; simpl.
  - left. apply Z.ltb_lt in E. done.
  - right. by rewrite Nat.add_1_r.
Qed.

Lemma outputs_run hist m (P : string → Prop) (Q : string → Prop) :
  (∀ p n, p ∈ hist → warning_threshold m < n → P (warning_line p.2 n)) →
  (∀ n, Q (py_str_mul " " (S n) +:+ CR)) →
  Forall P (warning_log m) → Forall Q (stdout m) →
  let m' := monitor_and_detect (verdicts hist) m in
  Forall P (warning_log m') ∧ Forall Q (stdout m') ∧
  (length (warning_log m') + length (stdout m')
   = length (warning_log m) + length (stdout m) + length hist)%nat.
Proof.
  revert m. induction hist as [|[a st] hist IH]; intros m HP HQ Hlog Hout.
  - simpl. split_and!; [done|done|lia].
  - change (monitor_and_detect (verdicts ((a, st) :: hist)) m)
      with (monitor_and_detect (verdicts hist) (loop_body a st m)).
    destruct (loop_body_fields a st m) as (Ht & _).
    destruct (IH (loop_body a st m)) as (H1 & H2 & H3).
    + intros p n Hp Hn. apply HP; [by right|congruence].
    + done.
    + destruct (outputs_step a st m) as [(Hlt & -> & _)|(-> & _)]; [|done].
      apply Forall_app. split; [done|]. repeat constructor.
      apply (HP (a, st)); [by left|]. unfold update in Hlt. by simpl in Hlt.
    + destruct (outputs_step a st m) as [(_ & _ & ->)|(_ & ->)]; [done|].
      apply Forall_app. split; [done|]. by repeat constructor.
    + split_and!; [done|done|]. rewrite H3.
      destruct (outputs_step a st m) as [(_ & -> & ->)|(-> & ->)];
        rewrite length_app; simpl; lia.
Qed.

(** X16. As long as no exception is raised, every pass of the loop either
    writes one line to [warnings.log] or prints one string: the lines are
    ["[<time>] WARNING!!! (Level <n>)"] followed by a line feed, with the
    time of one of the observations and a level above the threshold; the
    strings printed are one or more blanks followed by a carriage return. *)
Theorem warning_log_lines th hist :
  let m := monitor_and_detect (verdicts hist) (__init__ th) in
  Forall (λ line, ∃ p n, p ∈ hist ∧ th < n ∧
                         line = "[" +:+ p.2 +:+ "] WARNING!!! (Level "
                                +:+ pretty n +:+ ")" +:+ LF)
    (warning_log m) ∧
  Forall (λ out, ∃ n, out = py_str_mul " " (S n) +:+ CR) (stdout m) ∧
  (length (warning_log m) + length (stdout m) = length hist)%nat.
Proof.
  apply (outputs_run hist (__init__ th)); simpl; try by constructor.
  - intros p n Hp Hn. exists p, n. split_and!; [done|done|].
    unfold warning_line. rewrite !append_assoc. reflexivity.
  - intros n. by exists n.
Qed.


Lemma isolated_run hist m :
  1 ≤ warning_threshold m →
  to_remove m = 1 →
  warning_log m = [] →
  isolated hist = true →
  warning_level m = 0 ∨
  (warning_level m = 1 ∧ ∀ p, head hist = Some p → p.1 = false) →
  warning_log (monitor_and_detect (verdicts hist) m) = [] ∧
  0 ≤ warning_level (monitor_and_detect (verdicts hist) m) ≤ 1.
Proof.
  revert m. induction hist as [|[a st] hist IH]; intros m Hth Hr Hlog Hiso Hl.
  - simpl. split; [done|]. destruct Hl as [->|[-> _]]; lia.
  - change (monitor_and_detect (verdicts ((a, st) :: hist)) m)
      with (monitor_and_detect (verdicts hist) (loop_body a st m)).
    destruct (loop_body_fields a st m) as (Ht & Hlv & Hrm & _).
    assert (warning_level (update a m) ≤ 1) as Hle.
    { unfold update. simpl. destruct a.
      - destruct Hl as [->|[_ Hh]]; [lia|]. by specialize (Hh _ eq_refl).
      - destruct Hl as [->|[-> _]]; lia. }
    assert (warning_log (loop_body a st m) = []) as Hlog'.
    { destruct (outputs_step a st m) as [(Hlt & _)|(-> & _)]; [|done].
      unfold update in Hlt, Hle. simpl in Hlt, Hle. lia. }
    apply IH; [congruence| |done| |].
    + rewrite Hrm. unfold update. simpl. destruct a; [done|].
      destruct (0 <? _) eqn:E; [|done]. apply Z.ltb_lt in E.
      destruct Hl as [Hl|[Hl _]]; rewrite Hl, Hr in E; lia.
    + destruct a, hist as [|[[] ?] ?]; simpl in Hiso; done.
    + rewrite Hlv. unfold update. simpl. destruct a.
      * right. destruct Hl as [->|[_ Hh]]; [|by specialize (Hh _ eq_refl)].
        split; [done|]. intros p Hp.
        destruct hist as [|[[] ?] ?]; simpl in Hiso, Hp; [done|done|].
        by injection Hp as <-.
      * left. destruct Hl as [->|[-> _]]; rewrite Hr; lia.
Qed.

(** X19. With a threshold of 1 or more, anomalies that never come two in a
    row raise no warning: the level is back at 0 after the normal reading
    that follows each of them, and never exceeds 1. *)
Theorem isolated_anomalies_never_warn th hist :
  1 ≤ th →
  isolated hist = true →
  let m := monitor_and_detect (verdicts hist) (__init__ th) in
  warning_log m = [] ∧ 0 ≤ warning_level m ≤ 1.
Proof.
  intros Hth Hiso. apply isolated_run; simpl; auto.
Qed.

Lemma isolated_anomalies_never_warn_witness :
  let m := monitor_and_detect
             (verdicts [(true, "t1"); (false, "t2"); (true, "t3");
                        (false, "t4"); (false, "t5"); (true, "t6")])
             (__init__ 1) in
  warning_log m = [] ∧ 0 ≤ warning_level m ≤ 1.
Proof.
  apply (isolated_anomalies_never_warn 1
           [(true, "t1"); (false, "t2"); (true, "t3");
            (false, "t4"); (false, "t5"); (true, "t6")]);
    [lia | reflexivity].
Defined.

Lemma warning_log_step a st m :
  warning_log (loop_body a st m)
  = warning_log m ++
    (if warning_threshold m <? warning_level (update a m)
     then [warning_line st (warning_level (update a m))] else []).
Proof.
  unfold loop_body, _check_and_print_warning, _log_warning.
  change (warning_threshold (update a m)) with (warning_threshold m).
  destruct (warning_threshold m <? warning_level (update a m)); simpl;
    [done|by rewrite app_nil_r].
Qed.

Lemma threshold_step a st m1 m2 :
  warning_threshold m1 ≤ warning_threshold m2 →
  warning_level m2 = warning_level m1 →
  to_remove m2 = to_remove m1 →
  warning_log m2 `sublist_of` warning_log m1 →
  warning_level (loop_body a st m2) = warning_level (loop_body a st m1) ∧
  to_remove (loop_body a st m2) = to_remove (loop_body a st m1) ∧
  warning_log (loop_body a st m2) `sublist_of` warning_log (loop_body a st m1).
Proof.
  intros Hth Hl Hr Hsub.
  destruct (loop_body_fields a st m1) as (_ & -> & -> & _).
  destruct (loop_body_fields a st m2) as (_ & -> & -> & _).
  assert (warning_level (update a m2) = warning_level (update a m1) ∧
          to_remove (update a m2) = to_remove (update a m1)) as [Hl' Hr'].
  { unfold update. simpl. by rewrite Hl, Hr. }
  split_and!; [done|done|]. rewrite !warning_log_step, Hl'.
  apply sublist_app; [done|].
  destruct (warning_threshold m2 <? warning_level (update a m1)) eqn:E2;
    destruct (warning_threshold m1 <? warning_level (update a m1)) eqn:E1;
    try done.
  - apply Z.ltb_lt in E2. apply Z.ltb_ge in E1. lia.
  - apply sublist_nil_l.
Qed.

(** X18. The threshold only decides what is written: with a higher
    threshold the warning level and the amount to take off evolve exactly
    as with a lower one, and the warnings written are among those written
    with the lower one, in the same order. *)
Theorem higher_threshold_fewer_warnings th1 th2 obs :
  th1 ≤ th2 →
  let m1 := monitor_and_detect obs (__init__ th1) in
  let m2 := monitor_and_detect obs (__init__ th2) in
  warning_level m2 = warning_level m1 ∧
  to_remove m2 = to_remove m1 ∧
  warning_log m2 `sublist_of` warning_log m1.
Proof.
  intros Hth. simpl.
  generalize (__init__ th1) (__init__ th2)
    (Hth : warning_threshold (__init__ th1) ≤ warning_threshold (__init__ th2))
    (eq_refl : warning_level (__init__ th2) = warning_level (__init__ th1))
    (eq_refl : to_remove (__init__ th2) = to_remove (__init__ th1))
    (sublist_nil : warning_log (__init__ th2)
                   `sublist_of` warning_log (__init__ th1)).
  induction obs as [|[a st|tb] obs IH]; intros m1 m2 H1 H2 H3 H4.
  - done.
  - change (monitor_and_detect (Verdict a st :: obs) m1)
      with (monitor_and_detect obs (loop_body a st m1)).
    change (monitor_and_detect (Verdict a st :: obs) m2)
      with (monitor_and_detect obs (loop_body a st m2)).
    destruct (threshold_step a st m1 m2) as (? & ? & ?); try done.
    apply IH; try done.
    destruct (loop_body_fields a st m1) as (-> & _).
    by destruct (loop_body_fields a st m2) as (-> & _).
  - done.
Qed.

Lemma higher_threshold_fewer_warnings_witness :
  let obs := verdicts [(true, "t1"); (true, "t2"); (true, "t3");
                       (false, "t4"); (true, "t5")] in
  let m1 := monitor_and_detect obs (__init__ 1) in
  let m2 := monitor_and_detect obs (__init__ 2) in
  warning_level m2 = warning_level m1 ∧
  to_remove m2 = to_remove m1 ∧
  warning_log m2 `sublist_of` warning_log m1.
Proof.
  apply (higher_threshold_fewer_warnings 1 2). lia.
Defined.

(** The default threshold of 5: seven anomalies write the warnings of
    levels 6 and 7, and three normal readings bring the level from 7 to 6,
    4 and 0. *)
Lemma default_threshold_example :
  let alarms := pair true <$> ["a"; "b"; "c"; "d"; "e"; "f"; "g"] in
  let m := monitor_and_detect (verdicts alarms) (__init__ 5) in
  warning_level m = 7 ∧
  warning_log m = [ "[f] WARNING!!! (Level 6)" +:+ LF;
                    "[g] WARNING!!! (Level 7)" +:+ LF ] ∧
  (λ quiet, warning_level
              (monitor_and_detect (verdicts (alarms ++ (pair false <$> quiet)))
                 (__init__ 5)))
    <$> [ ["h"]; ["h"; "i"]; ["h"; "i"; "j"] ] = [6; 4; 0].
Proof. vm_compute. done. Qed.
